(** * synthpop/synthesizer.py: per-geography synthesis and its two drivers

    A shallow embedding of [synthesize], [synthesize_all],
    [geog_preprocessing] and [synthesize_all_in_parallel].

    Conventions of the embedding.
    - The cells of the float64 tables (marginal counts, frequencies,
      chi-square values) are rationals [Q], the exact value of the float
      in the cell; "equal to zero" is [Qeq], "unchanged" is Leibniz
      equality of the stored value.  Where the code computes with them
      ([.sum()], [.mean()], [int()]) the numbers are IEEE binary64 floats,
      those of the Standard Library's [SpecFloat].
    - The [cat_id] columns hold int64 values, added with wrap-around, or
      NaN once the NaN maximum of an empty column was added to them.
    - A DataFrame that the code updates through a reference it was handed
      ([h_jd.frequency = ...], [p_jd['cat_id'] += ...]) lives in the state
      of the monad; a local rebinding ([h_marg = h_marg.replace(...)]) is a
      bound variable.
    - Exceptions are values of [exn]; a call that may raise returns
      [exn + A].
    - The collaborators that are imported from other modules (the IPF and
      IPU solvers, the categorizer, the drawer), the float reductions of
      pandas and the recipe object are parameters: a class of functions
      and a record of functions. *)

From Stdlib Require Import ZArith QArith Qround String SpecFloat.
From stdpp Require Import base list gmap strings sorting.

(** ** Values, tables *)

Inductive cell := CInt (z : Z) | CStr (s : string).

#[global] Instance cell_eq_dec : EqDecision cell.
Proof. solve_decision. Defined.

#[global] Program Instance cell_countable : Countable cell :=
  inj_countable'
    (λ c, match c with CInt z => inl z | CStr s => inr s end)
    (λ x, match x with inl z => CInt z | inr s => CStr s end) _.
Next Obligation. by intros []. Qed.

(** The named cells of one row; a column the row lacks is a missing value. *)
Abbreviation columns := (gmap string cell).

(** A geography id is a mapping from key names ('state', 'county', ...) to
    values; the drivers read [geog_id.keys()] and [geog_id[k]]. *)
Abbreviation geog_id := (gmap string cell).

Record BlockGroupID := mkBlockGroupID {
  state : cell; county : cell; tract : cell; block_group : cell }.

#[global] Instance BlockGroupID_eq_dec : EqDecision BlockGroupID.
Proof. solve_decision. Defined.

#[global] Program Instance BlockGroupID_countable : Countable BlockGroupID :=
  inj_countable'
    (λ b, (state b, county b, tract b, block_group b))
    (λ t, match t with (s, c, t, b) => mkBlockGroupID s c t b end) _.
Next Obligation. by intros []. Qed.

Record FitQuality := mkFitQuality { people_chisq : Q; people_p : Q }.

(** A cell of a [cat_id] column: an int64 value, or NaN. *)
Inductive cat_id := CatId (z : Z) | CatNaN.

#[global] Instance cat_id_eq_dec : EqDecision cat_id.
Proof. solve_decision. Defined.

(** A marginal is a Series with a two-level index (category name, category
    value) holding counts. *)
Definition marginal := list (string * string * Q).

(** A joint-distribution table, by column: the row index (one tuple of
    category values per row), [cat_id] and [frequency]. *)
Record jd_table := mkJd {
  jd_index : list (list string);
  jd_cat_id : list cat_id;
  jd_frequency : list Q }.

(** A PUMS sample table, by row. *)
Record pums_row := mkPums {
  serialno : Z; pums_cat_id : cat_id; pums_cols : columns }.
Definition pums := list pums_row.

(** A constraint vector: a Series of fitted values, here with the index it
    gets from [x.index = jd.cat_id]. *)
Definition constraint := list (cat_id * Q).

(** Household table: row index (the household id) and the row's cells. *)
Record hh_row := mkHh { hh_index : Z; hh_cols : columns }.
Definition households := list hh_row.

(** Person table: the [hh_id] column and the other cells. *)
Record person_row := mkPerson { hh_id : Z; p_cols : columns }.
Definition people := list person_row.

(** ** Exceptions, log records, printed lines *)

Record exn := Exception { exn_class : string; exn_msg : string }.

Inductive level := DEBUG | INFO | WARN.

Inductive message :=
  | Text (s : string)
  | Dump (what : string)          (* logger.debug(<table>) *)
  | Timing                        (* "Time to run ipu: %.3fs" *)
  | Iterations (n : Z).           (* "Number of iterations: {0}" *)

Inductive event :=
  | Log (lv : level) (m : message)
  | Print (s : string)
  | PrintSubmitting (n : nat)     (* 'Submitting {0} geographies ...' *)
  | PrintException (e : exn).     (* 'Generated an exception: {0}' *)

(** ** A state and exception monad *)

Definition M (S A : Type) : Type := S → (exn + A) * S.

#[global] Instance M_ret {S} : MRet (M S) := λ A x s, (inr x, s).

#[global] Instance M_bind {S} : MBind (M S) := λ A B f m s,
  match m s with
  | (inl e, s') => (inl e, s')
  | (inr x, s') => f x s'
  end.

Definition call {S A} (r : exn + A) : M S A := λ s, (r, s).
Definition gets {S A} (f : S → A) : M S A := λ s, (inr (f s), s).
Definition modify {S} (f : S → S) : M S unit := λ s, (inr (), f s).

(** ** pandas operations used by [synthesize] *)

(** [Series.replace(0, sub)] on one value. *)
Definition replace0 (sub v : Q) : Q := if Qeq_bool v 0 then sub else v.

Definition marginal_replace0 (sub : Q) (m : marginal) : marginal :=
  prod_map id (replace0 sub) <$> m.

(** [x.index = idx]: pandas raises on a length mismatch. *)
Definition set_index (vals : list Q) (idx : list cat_id) : exn + constraint :=
  if decide (length vals = length idx) then inr (zip idx vals)
  else inl (Exception "ValueError" "Length mismatch").

(** [h_marg.groupby(level=0)]: the cells of every category name, the
    names in sorted order as pandas has the groups, the cells of one name
    in the order of the rows. *)
Fixpoint add_to_group (k : string) (v : Q) (gs : list (string * list Q))
  : list (string * list Q) :=
  match gs with
  | [] => [(k, [v])]
  | (k', vs) :: r =>
      match String.compare k k' with
      | Eq => (k', vs ++ [v]) :: r
      | Lt => (k, [v]) :: gs
      | Gt => (k', vs) :: add_to_group k v r
      end
  end.

Definition groupby_level0 (m : marginal) : list (string * list Q) :=
  foldl (λ gs r, add_to_group r.1.1 r.2 gs) [] m.

(** ** float64 *)

Definition float := spec_float.

Definition float_add : float → float → float := SFadd 53 1024.
Definition float_div : float → float → float := SFdiv 53 1024.

Definition float_of_Z (z : Z) : float := binary_normalize 53 1024 z 0 false.

(** The float nearest to [q], for a numerator and a denominator that are
    floats themselves (below 2^53, or such a number times a power of 2). *)
Definition float_of_Q (q : Q) : float :=
  float_div (float_of_Z (Qnum q)) (float_of_Z (Zpos (Qden q))).

(** The number a finite float stands for. *)
Definition float_value (x : float) : option Q :=
  match x with
  | S754_zero _ => Some 0%Q
  | S754_finite s m e => Some (inject_Z (cond_Zopp s (Zpos m)) * 2 ^ e)%Q
  | S754_infinity _ | S754_nan => None
  end.

(** Truncation toward zero. *)
Definition int (q : Q) : Z := Z.quot (Qnum q) (Zpos (Qden q)).

(** Python's [int(x)] on a float: the value cut off toward zero;
    [int(nan)] and [int(inf)] raise. *)
Definition int_of_float (x : float) : exn + Z :=
  match x with
  | S754_nan =>
      inl (Exception "ValueError" "cannot convert float NaN to integer")
  | S754_infinity _ =>
      inl (Exception "OverflowError"
             "cannot convert float infinity to integer")
  | S754_zero _ => inr 0%Z
  | S754_finite s m e =>
      inr (int (inject_Z (cond_Zopp s (Zpos m)) * 2 ^ e)%Q)
  end.

(** Float reductions that add from left to right, one rounding per
    addition; the mean is the sum divided by the count. *)
Definition plain_sum (l : list Q) : float :=
  foldl (λ acc v, float_add acc (float_of_Q v)) (S754_zero false) l.

Definition plain_mean (l : list float) : float :=
  float_div (foldl float_add (S754_zero false) l)
            (float_of_Z (Z.of_nat (length l))).

(** ** int64 and NaN in the [cat_id] columns *)

(** The int64 value of an integer result: two's complement wrap-around. *)
Definition wrap64 (z : Z) : Z := ((z + 2 ^ 63) mod 2 ^ 64 - 2 ^ 63)%Z.

Definition int64 (z : Z) : Prop := (- 2 ^ 63 ≤ z < 2 ^ 63)%Z.

(** [a + b] on cells: int64 addition, NaN when one of them is NaN. *)
Definition cat_add (a b : cat_id) : cat_id :=
  match a, b with
  | CatId x, CatId y => CatId (wrap64 (x + y))
  | _, _ => CatNaN
  end.

(** [Series.max()]: the largest value, NaN cells skipped; NaN when there
    is no value, as on an empty column. *)
Definition cat_max (a b : cat_id) : cat_id :=
  match a, b with
  | CatId x, CatId y => CatId (Z.max x y)
  | CatNaN, _ => b
  | _, CatNaN => a
  end.

Definition max_cat_id (ids : list cat_id) : cat_id := foldl cat_max CatNaN ids.

(** [h_jd['cat_id'].max() + 1] *)
Definition p_starting_cat_id_of (h_jd : jd_table) : cat_id :=
  cat_add (max_cat_id (jd_cat_id h_jd)) (CatId 1).

(** [t['cat_id'] += k] *)
Definition jd_shift_cat_id (k : cat_id) (t : jd_table) : jd_table :=
  mkJd (jd_index t) ((λ c, cat_add c k) <$> jd_cat_id t) (jd_frequency t).

Definition jd_replace0_frequency (sub : Q) (t : jd_table) : jd_table :=
  mkJd (jd_index t) (jd_cat_id t) (replace0 sub <$> jd_frequency t).

Definition pums_shift_cat_id (k : cat_id) (t : pums) : pums :=
  (λ r, mkPums (serialno r) (cat_add (pums_cat_id r) k) (pums_cols r)) <$> t.

(** ** Collaborators

    [calculate_constraints] (ipf), [frequency_tables] (categorizer),
    [household_weights] (ipu) and [draw_households] (draw) are imported
    from sibling modules.  Each is a function of its arguments that may
    raise and that assigns nothing on the tables it is given; the drawer's
    random state is taken as fixed.

    [group_sum] and [series_mean] are the float reductions of pandas:
    the float that [.groupby(level=0).sum()] holds for the cells of one
    group, and the float that [.mean()] returns for a Series that is not
    empty.  In which order pandas adds the floats up, and with which
    compensation, is not in the source. *)

Class Collaborators := {
  ipf_aux : Type;
  freq_table : Type;
  weights : Type;
  ipu_fit : Type;
  calculate_constraints : marginal → list Q → exn + (list Q * ipf_aux);
  frequency_tables :
    pums → pums → list cat_id → list cat_id →
    exn + (freq_table * freq_table);
  household_weights :
    freq_table → freq_table → constraint → constraint → Z →
    exn + (weights * ipu_fit * Z);
  draw_households :
    Z → pums → pums → freq_table → constraint → constraint → weights → Z →
    exn + (households * people * Q * Q);
  group_sum : list Q → float;
  series_mean : list float → float }.

(** [h_marg.groupby(level=0).sum()]: one total per category name. *)
Definition groupby_level0_sum `{Collaborators} (m : marginal)
  : list (string * float) :=
  prod_map id group_sum <$> groupby_level0 m.

(** [Series.mean()]: NaN on an empty Series. *)
Definition mean `{Collaborators} (l : list float) : float :=
  match l with
  | [] => S754_nan
  | _ => series_mean l
  end.

(** [int(h_marg.groupby(level=0).sum().mean())] *)
Definition num_households_of `{Collaborators} (h_marg : marginal)
  : exn + Z :=
  int_of_float (mean (groupby_level0_sum h_marg).*2).

(** The recipe object handed to the drivers.  Every call returns tables of
    its own: a recipe that hands one table object to several geographies
    is outside the model. *)
Record Recipe := mkRecipe {
  get_available_geography_ids : exn + list geog_id;
  get_num_geographies : exn + Z;
  get_household_marginal_for_geography : geog_id → exn + marginal;
  get_person_marginal_for_geography : geog_id → exn + marginal;
  get_household_joint_dist_for_geography : geog_id → exn + (pums * jd_table);
  get_person_joint_dist_for_geography : geog_id → exn + (pums * jd_table) }.

(** ** [synthesize] *)

(** The six table objects the caller passed, as the caller sees them, and
    the log. *)
Record synth_state := SynthState {
  o_h_marg : marginal; o_p_marg : marginal;
  o_h_jd : jd_table; o_p_jd : jd_table;
  o_h_pums : pums; o_p_pums : pums;
  o_log : list event }.

Definition set_h_jd (f : jd_table → jd_table) (s : synth_state) :=
  SynthState (o_h_marg s) (o_p_marg s) (f (o_h_jd s)) (o_p_jd s)
             (o_h_pums s) (o_p_pums s) (o_log s).

Definition set_p_jd (f : jd_table → jd_table) (s : synth_state) :=
  SynthState (o_h_marg s) (o_p_marg s) (o_h_jd s) (f (o_p_jd s))
             (o_h_pums s) (o_p_pums s) (o_log s).

Definition set_p_pums (f : pums → pums) (s : synth_state) :=
  SynthState (o_h_marg s) (o_p_marg s) (o_h_jd s) (o_p_jd s)
             (o_h_pums s) (f (o_p_pums s)) (o_log s).

Definition logger (lv : level) (m : message) : M synth_state unit :=
  modify (λ s, SynthState (o_h_marg s) (o_p_marg s) (o_h_jd s) (o_p_jd s)
                          (o_h_pums s) (o_p_pums s) (o_log s ++ [Log lv m])).

Section Synthesize.
Context `{Collaborators}.

(** What the weight fit is run on (lines 33-66 compute it). *)
Record ipu_args := IpuArgs {
  ia_h_marg : marginal;
  ia_h_pums : pums; ia_p_pums : pums;
  ia_household_freq : freq_table; ia_person_freq : freq_table;
  ia_h_constraint : constraint; ia_p_constraint : constraint }.

(** What [synthesize] hands to the drawer besides [hh_index_start]. *)
Record draw_args := DrawArgs {
  da_num_households : Z;
  da_h_pums : pums; da_p_pums : pums;
  da_household_freq : freq_table;
  da_h_constraint : constraint; da_p_constraint : constraint;
  da_best_weights : weights }.

(** Lines 33-39: the zero marginal and zero cell substitutions.  The
    marginals are rebound locally; the [frequency] columns are assigned
    on the tables passed in. *)
Definition zero_guard (marginal_zero_sub jd_zero_sub : Q)
  : M synth_state (marginal * marginal) :=
  h_marg ← gets (λ s, marginal_replace0 marginal_zero_sub (o_h_marg s));
  p_marg ← gets (λ s, marginal_replace0 marginal_zero_sub (o_p_marg s));
  _ ← modify (set_h_jd (jd_replace0_frequency jd_zero_sub));
  _ ← modify (set_p_jd (jd_replace0_frequency jd_zero_sub));
  mret (h_marg, p_marg).

(** Lines 57-61: person cat ids are moved past the household ones, in
    place, and the person constraint takes the new ids as index. *)
Definition namespace_person_cat_ids (p_vals : list Q)
  : M synth_state constraint :=
  p_starting_cat_id ← gets (λ s, p_starting_cat_id_of (o_h_jd s));
  _ ← modify (set_p_jd (jd_shift_cat_id p_starting_cat_id));
  _ ← modify (set_p_pums (pums_shift_cat_id p_starting_cat_id));
  p_jd ← gets o_p_jd;
  call (set_index p_vals (jd_cat_id p_jd)).

Definition max_iterations : Z := 20000.

(** Lines 33-66: zero guard, both constraint fits, the namespacing of
    person categories and the frequency tables. *)
Definition synthesize_prepare (marginal_zero_sub jd_zero_sub : Q)
  : M synth_state ipu_args :=
  '(h_marg, p_marg) ← zero_guard marginal_zero_sub jd_zero_sub;
  _ ← logger INFO (Text "Running ipf for households");
  h_jd ← gets o_h_jd;
  '(h_vals, _) ← call (calculate_constraints h_marg (jd_frequency h_jd));
  h_constraint ← call (set_index h_vals (jd_cat_id h_jd));
  _ ← logger DEBUG (Text "Household constraint");
  _ ← logger DEBUG (Dump "h_constraint");
  _ ← logger INFO (Text "Running ipf for persons");
  p_jd ← gets o_p_jd;
  '(p_vals, _) ← call (calculate_constraints p_marg (jd_frequency p_jd));
  _ ← logger DEBUG (Text "Person constraint");
  _ ← logger DEBUG (Dump "p_constraint");
  p_constraint ← namespace_person_cat_ids p_vals;
  p_pums ← gets o_p_pums;
  h_pums ← gets o_h_pums;
  p_jd ← gets o_p_jd;
  '(household_freq, person_freq) ←
    call (frequency_tables p_pums h_pums (jd_cat_id p_jd) (jd_cat_id h_jd));
  mret (IpuArgs h_marg h_pums p_pums household_freq person_freq
                h_constraint p_constraint).

(** Lines 69-85: the weight fit, the report on its iteration count and
    the number of households to draw. *)
Definition synthesize_weights (a : ipu_args) : M synth_state draw_args :=
  _ ← logger INFO (Text "Running ipu");
  '(best_weights, fit_quality, iterations) ←
    call (household_weights (ia_household_freq a) (ia_person_freq a)
            (ia_h_constraint a) (ia_p_constraint a) max_iterations);
  _ ← logger INFO Timing;
  _ ← logger DEBUG (Text "IPU weights:");
  _ ← logger DEBUG (Dump "best_weights.describe()");
  _ ← logger DEBUG (Dump "Fit quality");
  _ ← (if decide (iterations = 20000%Z)
       then logger WARN (Iterations iterations)
       else logger DEBUG (Iterations iterations));
  num_households ← call (num_households_of (ia_h_marg a));
  mret (DrawArgs num_households (ia_h_pums a) (ia_p_pums a)
                 (ia_household_freq a) (ia_h_constraint a)
                 (ia_p_constraint a) best_weights).

Definition synthesize_fit (marginal_zero_sub jd_zero_sub : Q)
  : M synth_state draw_args :=
  synthesize_prepare marginal_zero_sub jd_zero_sub ≫= synthesize_weights.

(** Lines 90-92. *)
Definition draw (hh_index_start : Z) (a : draw_args)
  : M synth_state (households * people * Q * Q) :=
  call (draw_households (da_num_households a) (da_h_pums a) (da_p_pums a)
          (da_household_freq a) (da_h_constraint a) (da_p_constraint a)
          (da_best_weights a) hh_index_start).

Definition synthesize (marginal_zero_sub jd_zero_sub : Q)
    (hh_index_start : Z) : M synth_state (households * people * Q * Q) :=
  synthesize_fit marginal_zero_sub jd_zero_sub ≫= draw hh_index_start.

End Synthesize.

(** ** Driver state and table operations *)

Record acc := Acc {
  hh_list : list households;
  people_list : list people;
  cnt : Z;
  fit_quality : gmap BlockGroupID FitQuality;
  hh_index_start : Z }.

Definition acc0 : acc := Acc [] [] 0 ∅ 0.

Definition emit (e : event) : M (list event) unit := modify (λ l, l ++ [e]).

(** [geog_id[k]] *)
Definition getitem (g : geog_id) (k : string) : exn + cell :=
  match g !! k with
  | Some v => inr v
  | None => inl (Exception "KeyError" k)
  end.

(** [BlockGroupID(geog_id['state'], geog_id['county'], geog_id['tract'],
    geog_id['block group'])] *)
Definition block_group_key (g : geog_id) : M (list event) BlockGroupID :=
  s ← call (getitem g "state");
  c ← call (getitem g "county");
  t ← call (getitem g "tract");
  b ← call (getitem g "block group");
  mret (mkBlockGroupID s c t b).

(** [households[k] = v] *)
Definition set_column (k : string) (v : cell) (hh : households) : households :=
  (λ r, mkHh (hh_index r) (<[k := v]> (hh_cols r))) <$> hh.

(** [for geog_cat in geog_id.keys(): households[geog_cat] = geog_id[geog_cat]] *)
Definition append_location_identifiers (g : geog_id) (hh : households)
  : households :=
  map_fold set_column hh g.

(** [households.index += k] and [people.hh_id += k] *)
Definition shift_index (k : Z) (hh : households) : households :=
  (λ r, mkHh (hh_index r + k)%Z (hh_cols r)) <$> hh.

Definition shift_hh_id (k : Z) (p : people) : people :=
  (λ r, mkPerson (hh_id r + k)%Z (p_cols r)) <$> p.

(** [if len(households) > 0: hh_index_start = households.index.values[-1] + 1] *)
Definition next_index_start (hh : households) (current : Z) : Z :=
  match last hh with
  | Some r => (hh_index r + 1)%Z
  | None => current
  end.

(** [num_geogs is not None and cnt >= num_geogs] *)
Definition reached (num_geogs : option Z) (cnt : Z) : bool :=
  match num_geogs with
  | Some n => bool_decide (n ≤ cnt)%Z
  | None => false
  end.

(** [pd.concat(frames)]: raises on an empty list of frames. *)
Definition pd_concat {A} (frames : list (list A)) : exn + list A :=
  match frames with
  | [] => inl (Exception "ValueError" "No objects to concatenate")
  | _ => inr (concat frames)
  end.

(** The arguments [geog_preprocessing] returns for [synthesize]. *)
Record synth_args := SynthArgs {
  a_h_marg : marginal; a_p_marg : marginal;
  a_h_jd : jd_table; a_p_jd : jd_table;
  a_h_pums : pums; a_p_pums : pums;
  a_marginal_zero_sub : Q; a_jd_zero_sub : Q }.

(** A task submitted to the process pool runs in another process: the
    parent gets its value or its exception through the future, the log
    records stay in the worker. *)
Definition pooled {A} (task : M (list event) A) : exn + A := (task []).1.

(** [as_completed(fs)]: the futures of [fs], each once, in the order in
    which the iterator hands them to the loop.  That order is not in the
    source; [sched] holds it: at every step, which of the futures not yet
    handed over comes next (taken modulo their number; 0 once the list is
    used up).  With [sched = []] they come in the order of [fs]. *)
Fixpoint as_completed_n {A} (n : nat) (sched : list nat) (fs : list A)
  : list A :=
  match n with
  | O => []
  | S n' =>
      let k := (hd 0 sched `mod` length fs) in
      match fs !! k with
      | Some f => f :: as_completed_n n' (tl sched) (delete k fs)
      | None => []
      end
  end.

Definition as_completed {A} (sched : list nat) (fs : list A) : list A :=
  as_completed_n (length fs) sched fs.

(** ** The drivers *)

Section Drivers.
Context `{Collaborators}.
Variable recipe : Recipe.
Variable num_geogs : option Z.
Variables marginal_zero_sub jd_zero_sub : Q.

(** [synthesize] called from the driving process: the tables it is
    handed are the ones just fetched, the log is the process's log. *)
Definition call_synthesize (a : synth_args) (start : Z)
  : M (list event) (households * people * Q * Q) :=
  λ log,
    let r := synthesize (a_marginal_zero_sub a) (a_jd_zero_sub a) start
               (SynthState (a_h_marg a) (a_p_marg a) (a_h_jd a) (a_p_jd a)
                           (a_h_pums a) (a_p_pums a) log) in
    (r.1, o_log r.2).

(** Lines 172-190, and the same statements at lines 123-138. *)
Definition geog_preprocessing (g : geog_id) : M (list event) synth_args :=
  h_marg ← call (get_household_marginal_for_geography recipe g);
  _ ← emit (Log DEBUG (Text "Household marginal"));
  _ ← emit (Log DEBUG (Dump "h_marg"));
  p_marg ← call (get_person_marginal_for_geography recipe g);
  _ ← emit (Log DEBUG (Text "Person marginal"));
  _ ← emit (Log DEBUG (Dump "p_marg"));
  '(h_pums, h_jd) ← call (get_household_joint_dist_for_geography recipe g);
  _ ← emit (Log DEBUG (Text "Household joint distribution"));
  _ ← emit (Log DEBUG (Dump "h_jd"));
  '(p_pums, p_jd) ← call (get_person_joint_dist_for_geography recipe g);
  _ ← emit (Log DEBUG (Text "Person joint distribution"));
  _ ← emit (Log DEBUG (Dump "p_jd"));
  mret (SynthArgs h_marg p_marg h_jd p_jd h_pums p_pums
                  marginal_zero_sub jd_zero_sub).

(** Lines 121-159: the body of the loop of [synthesize_all]. *)
Definition synthesize_geog (g : geog_id) (a : acc) : M (list event) acc :=
  args ← geog_preprocessing g;
  '(households, people, chisq, p) ← call_synthesize args (hh_index_start a);
  let households := append_location_identifiers g households in
  key ← block_group_key g;
  mret (Acc (hh_list a ++ [households]) (people_list a ++ [people])
            (cnt a + 1)
            (<[key := mkFitQuality chisq p]> (fit_quality a))
            (next_index_start households (hh_index_start a))).

Fixpoint synthesize_loop (indexes : list geog_id) (a : acc)
  : M (list event) acc :=
  match indexes with
  | [] => mret a
  | g :: rest =>
      a' ← synthesize_geog g a;
      if reached num_geogs (cnt a') then mret a'
      else synthesize_loop rest a'
  end.

Definition default_indexes (indexes : option (list geog_id))
  : M (list event) (list geog_id) :=
  match indexes with
  | Some l => mret l
  | None => call (get_available_geography_ids recipe)
  end.

Definition concat_results (a : acc)
  : M (list event) (households * people * gmap BlockGroupID FitQuality) :=
  all_households ← call (pd_concat (hh_list a));
  all_persons ← call (pd_concat (people_list a));
  mret (all_households, all_persons, fit_quality a).

Definition synthesize_all (indexes : option (list geog_id))
  : M (list event) (households * people * gmap BlockGroupID FitQuality) :=
  indexes ← default_indexes indexes;
  _ ← call (get_num_geographies recipe);      (* tqdm(..., total=...) *)
  a ← synthesize_loop indexes acc0;
  concat_results a.

(** Lines 226-233: one [geog_preprocessing] task per geography, in the
    order of [indexes]; [geog_ids] records that order. *)
Fixpoint submitted (indexes : list geog_id) (cnt : Z) : list geog_id :=
  match indexes with
  | [] => []
  | g :: rest =>
      g :: (if reached num_geogs (cnt + 1) then []
            else submitted rest (cnt + 1))
  end.

(** [ex.submit(synthesize, *geog_args)]: [hh_index_start] keeps its
    default 0. *)
Definition synthesize_task (a : synth_args)
  : exn + (households * people * Q * Q) :=
  pooled (call_synthesize a 0).

(** Lines 287-311: one round of the reassembly loop. *)
Definition reassemble_one (geog_ids : list geog_id) (i : nat)
    (future : exn + (households * people * Q * Q)) (a : acc)
  : M (list event) acc :=
  match future with
  | inl e => _ ← emit (PrintException e); mret a
  | inr (households, people, chisq, p) =>
      g ← call (match geog_ids !! i with
                | Some g => inr g
                | None => inl (Exception "IndexError" "list index out of range")
                end);
      let households := append_location_identifiers g households in
      let households := shift_index (hh_index_start a) households in
      let people := shift_hh_id (hh_index_start a) people in
      key ← block_group_key g;
      mret (Acc (hh_list a ++ [households]) (people_list a ++ [people])
                (cnt a)
                (<[key := mkFitQuality chisq p]> (fit_quality a))
                (next_index_start households (hh_index_start a)))
  end.

Fixpoint reassemble (geog_ids : list geog_id) (i : nat)
    (futures : list (exn + (households * people * Q * Q))) (a : acc)
  : M (list event) acc :=
  match futures with
  | [] => mret a
  | f :: rest =>
      a' ← reassemble_one geog_ids i f a;
      reassemble geog_ids (S i) rest a'
  end.

(** Lines 210-237: submission of the fetch tasks and collection of their
    results as they complete.  [sched1] is the completion order the pool
    produces for them. *)
Definition submit_and_collect (indexes : option (list geog_id))
    (sched1 : list nat)
  : M (list event) (list geog_id * list synth_args) :=
  indexes ← default_indexes indexes;
  _ ← emit (Print "Submitting function args for parallel processing:");
  let geog_ids := submitted indexes 0 in
  let geog_synth_args := (λ g, pooled (geog_preprocessing g)) <$> geog_ids in
  _ ← emit (Print "Processing function args in parallel:");
  finished_args ← mapM call (as_completed sched1 geog_synth_args);
  mret (geog_ids, finished_args).

(** Lines 285-317: reassembly and concatenation. *)
Definition process_results (geog_ids : list geog_id)
    (futures : list (exn + (households * people * Q * Q)))
  : M (list event) (households * people * gmap BlockGroupID FitQuality) :=
  _ ← emit (Print "Processing results:");
  a ← reassemble geog_ids 0 futures
        (Acc [] [] (Z.of_nat (length geog_ids)) ∅ 0);
  concat_results a.

(** [sched2] is the completion order of the synthesis tasks. *)
Definition synthesize_all_in_parallel (indexes : option (list geog_id))
    (sched1 sched2 : list nat)
  : M (list event) (households * people * gmap BlockGroupID FitQuality) :=
  '(geog_ids, finished_args) ← submit_and_collect indexes sched1;
  _ ← emit (PrintSubmitting (length finished_args));
  let futures := synthesize_task <$> finished_args in
  _ ← emit (Print "Beginning population synthesis in parallel:");
  let _ := as_completed sched2 futures in     (* for f in ...: pass *)
  process_results geog_ids futures.

End Drivers.

(** ** A small instance, to run the model on

    A recipe over made-up geographies and stand-ins for the collaborators:
    the fitted constraint is the frequency column itself, the weight solver
    always uses up its iteration budget, the drawer deals out the sample
    households round-robin, numbering them from [hh_index_start], and the
    float reductions are the plain ones. *)

Module Demo.

Definition draw_row (h_pums p_pums : pums) (s0 : pums_row) (start : Z)
    (i : nat) : hh_row * people :=
  let s := nth (i `mod` length h_pums) h_pums s0 in
  let id := (start + Z.of_nat i)%Z in
  (mkHh id (pums_cols s),
   (λ p, mkPerson id (pums_cols p)) <$>
     filter (λ p, serialno p = serialno s) p_pums).

Definition draw (num : Z) (h_pums p_pums : pums) (start : Z)
  : exn + (households * people * Q * Q) :=
  match h_pums with
  | [] => inl (Exception "ValueError" "nothing to draw from")
  | s0 :: _ =>
      let drawn :=
        draw_row h_pums p_pums s0 start <$> seq 0 (Z.to_nat num) in
      inr (drawn.*1, concat drawn.*2, inject_Z num, 1%Q)
  end.

#[local] Instance collaborators : Collaborators := {|
  ipf_aux := unit;
  freq_table := unit;
  weights := unit;
  ipu_fit := unit;
  calculate_constraints := λ _ frequency, inr (frequency, ());
  frequency_tables := λ _ _ _ _, inr ((), ());
  household_weights := λ _ _ _ _ max_iter, inr ((), (), max_iter);
  draw_households := λ num h_pums p_pums _ _ _ _ start,
    draw num h_pums p_pums start;
  group_sum := plain_sum;
  series_mean := plain_mean |}.

(** Geography [k] of tract 000100. *)
Definition geog (k : Z) : geog_id :=
  {[ "state" := CStr "06"; "county" := CStr "075";
     "tract" := CStr "000100"; "block group" := CInt k ]}.

Definition block_group_of (g : geog_id) : exn + Z :=
  match g !! "block group" with
  | Some (CInt k) => inr k
  | _ => inl (Exception "KeyError" "block group")
  end.

Definition sample (k : Z) (col : string) : pums :=
  if decide (k = 0%Z) then []
  else [mkPums (100 + k) (CatId 0) {[ col := CInt k ]}].

Definition joint (k : Z) : jd_table :=
  mkJd [["1"]] [CatId 0] [inject_Z k].

(** Geography [k] has [k] households of one kind; geography 13 cannot be
    read, geography 0 has no sample records. *)
Definition recipe : Recipe := {|
  get_available_geography_ids := inr (geog <$> [1; 2; 3]%Z);
  get_num_geographies := inr 3%Z;
  get_household_marginal_for_geography := λ g,
    match block_group_of g with
    | inl e => inl e
    | inr k =>
        if decide (k = 13%Z) then inl (Exception "IOError" "no marginal")
        else inr [("hhsize", "1", inject_Z k)]
    end;
  get_person_marginal_for_geography := λ g,
    match block_group_of g with
    | inl e => inl e
    | inr k => inr [("age", "any", inject_Z k)]
    end;
  get_household_joint_dist_for_geography := λ g,
    match block_group_of g with
    | inl e => inl e
    | inr k => inr (sample k "household of", joint k)
    end;
  get_person_joint_dist_for_geography := λ g,
    match block_group_of g with
    | inl e => inl e
    | inr k => inr (sample k "person of", joint k)
    end |}.

(** Runs of the two drivers on the recipe. *)
Definition sequential_run (indexes : option (list geog_id)) :=
  synthesize_all recipe None 0.01 0.001 indexes [].

Definition parallel_run (indexes : option (list geog_id))
    (sched1 : list nat) :=
  synthesize_all_in_parallel recipe None 0.01 0.001 indexes sched1 [] [].

(** What a run returned, with every row and the FitQuality map written
    out as lists. *)
Definition table := list (Z * list (string * cell)).

Definition view
    (r : (exn + households * people * gmap BlockGroupID FitQuality)
         * list event)
  : exn + table * table * list (BlockGroupID * FitQuality) :=
  match r.1 with
  | inl e => inl e
  | inr (hh, pe, fq) =>
      inr ((λ h, (hh_index h, map_to_list (hh_cols h))) <$> hh,
           (λ p, (hh_id p, map_to_list (p_cols p))) <$> pe,
           map_to_list fq)
  end.

(** Rows as [view] shows them: a household row with its id, the block
    group on its key columns and the geography whose sample it was drawn
    from; a person row with its [hh_id] and the geography it was drawn
    for. *)
Definition household (id on_keys drawn_for : Z) : Z * list (string * cell) :=
  (id, [("state", CStr "06"); ("county", CStr "075");
        ("block group", CInt on_keys); ("tract", CStr "000100");
        ("household of", CInt drawn_for)]).

Definition person (id drawn_for : Z) : Z * list (string * cell) :=
  (id, [("person of", CInt drawn_for)]).

Definition key (k : Z) : BlockGroupID :=
  mkBlockGroupID (CStr "06") (CStr "075") (CStr "000100") (CInt k).

End Demo.

(** ** Vocabulary of the properties *)

(** [new] is [old] with exactly the zero cells replaced by [sub]. *)
Definition zero_guarded (sub : Q) (old new : list Q) : Prop :=
  Forall2 (λ v v', if Qeq_bool v 0 then v' = sub else v' = v) old new.

(** A cell that is zero or not below [sub]. *)
Definition zero_or_at_least (sub v : Q) : Prop := (v == 0)%Q ∨ (sub <= v)%Q.

Definition minimum_is (m : Z) (l : list Z) : Prop :=
  m ∈ l ∧ Forall (λ x, (m ≤ x)%Z) l.

(** Rounding to the nearest integer, ties to the even one (Python's
    [round]); written from the words of the specification, to compare
    [int] with. *)
Definition round_half_even (q : Q) : Z :=
  let f := Qfloor q in
  match (q - inject_Z f ?= 1 # 2)%Q with
  | Lt => f
  | Gt => (f + 1)%Z
  | Eq => if Z.even f then f else (f + 1)%Z
  end.

Definition ids (hh : households) : list Z := hh_index <$> hh.

(** Strictly increasing ids whose first one, if any, is [start]. *)
Definition numbered_from (start : Z) (l : list Z) : Prop :=
  StronglySorted Z.lt l ∧ ∀ x, head l = Some x → x = start.

(** One past the largest id of [l]; 0 when there is none. *)
Definition one_past_max (l : list Z) : Z :=
  foldr (λ x m, Z.max (x + 1) m) 0%Z l.

(** Every block starts one past the largest id of the blocks before it. *)
Definition stitched (blocks : list households) : Prop :=
  ∀ pre blk post, blocks = pre ++ blk :: post →
    numbered_from (one_past_max (ids (concat pre))) (ids blk).

(** [r] is what the drawer returned for some call with [hh_index_start]
    equal to [start]. *)
Definition drawn_at `{Collaborators} (start : Z)
    (r : households * people * Q * Q) : Prop :=
  ∃ num hp pp hf hc pc w,
    draw_households num hp pp hf hc pc w start = inr r.

(** Modelled from the spec: [draw.draw_households] is not part of the
    sources at hand.  It is handed the household-id offset and every
    household it returns has a unique, monotonically increasing id: the
    ids of one draw increase strictly and the first one is
    [hh_index_start]. *)
Definition drawer_numbers_from_start `{Collaborators} : Prop :=
  ∀ start hh pe c p,
    drawn_at start (hh, pe, c, p) → numbered_from start (ids hh).

(** Modelled from the spec: [draw.draw_households] returns person rows
    whose [hh_id] already references the drawn households. *)
Definition drawer_links_people `{Collaborators} : Prop :=
  ∀ start hh pe c p,
    drawn_at start (hh, pe, c, p) → Forall (λ r, hh_id r ∈ ids hh) pe.

(** A household row that carries the key columns of one of the
    geographies [idx]. *)
Definition located (idx : list geog_id) (r : hh_row) : Prop :=
  ∃ g, g ∈ idx ∧ g ⊆ hh_cols r.

(** The geographies a driver works on: [indexes], or the recipe's. *)
Definition resolved (recipe : Recipe) (indexes : option (list geog_id))
  : list geog_id :=
  match indexes with
  | Some l => l
  | None =>
      match get_available_geography_ids recipe with
      | inr l => l
      | inl _ => []
      end
  end.

Definition succeeded {A} (f : exn + A) : bool :=
  match f with inl _ => false | inr _ => true end.

(** The slots of the reassembly loop whose future holds a result. *)
Definition surviving {A} (geog_ids : list geog_id) (futures : list (exn + A))
  : list (geog_id * (exn + A)) :=
  filter (λ slot, succeeded slot.2) (zip geog_ids futures).

Definition errors {A} (futures : list (exn + A)) : list exn :=
  omap (λ f, match f with inl e => Some e | inr _ => None end) futures.

Definition exception_reports (log : list event) : list exn :=
  omap (λ e, match e with PrintException x => Some x | _ => None end) log.

(** [m] relates every state it is run in to the state it leaves. *)
Definition keeps {S A} (R : relation S) (m : M S A) : Prop :=
  ∀ s, R s (m s).2.

(** The tables that no statement of [synthesize] assigns to. *)
Definition same_frame (s s' : synth_state) : Prop :=
  o_h_marg s' = o_h_marg s ∧ o_p_marg s' = o_p_marg s ∧
  o_h_pums s' = o_h_pums s ∧
  jd_index (o_h_jd s') = jd_index (o_h_jd s) ∧
  jd_cat_id (o_h_jd s') = jd_cat_id (o_h_jd s) ∧
  jd_index (o_p_jd s') = jd_index (o_p_jd s).

(** The running offset is one past the largest id stitched so far. *)
Definition stitching_invariant (a : acc) : Prop :=
  stitched (hh_list a) ∧
  hh_index_start a = one_past_max (ids (concat (hh_list a))).

(** Every person row points at a household row collected so far. *)
Definition linked (a : acc) : Prop :=
  Forall (λ r, hh_id r ∈ ids (concat (hh_list a))) (concat (people_list a)).

(** The reassembly loop over slots given as (geography id, future) pairs. *)
Fixpoint reassemble_slots `{Collaborators}
    (slots : list (geog_id * (exn + (households * people * Q * Q))))
    (a : acc) : M (list event) acc :=
  match slots with
  | [] => mret a
  | (g, f) :: rest => a' ← reassemble_one [g] 0 f a; reassemble_slots rest a'
  end.

(** Two accumulators with the same tables, map and offset. *)
Definition same_tables (a b : acc) : Prop :=
  hh_list a = hh_list b ∧ people_list a = people_list b ∧
  fit_quality a = fit_quality b ∧ hh_index_start a = hh_index_start b.

(** Two outcomes of the reassembly loop that raise the same exception or
    hold the same tables. *)
Definition agree (x y : exn + acc) : Prop :=
  match x, y with
  | inl e, inl e' => e = e'
  | inr a, inr b => same_tables a b
  | _, _ => False
  end.

(** A geography id that has the four fields the FitQuality key is built
    from. *)
Definition has_keys (g : geog_id) : Prop :=
  is_Some (g !! "state") ∧ is_Some (g !! "county") ∧
  is_Some (g !! "tract") ∧ is_Some (g !! "block group").

(** How many geographies the loops take from [indexes]: all of them, or
    [num_geogs] of them and never fewer than one. *)
Definition capped (num_geogs : option Z) (indexes : list geog_id)
  : list geog_id :=
  match num_geogs with
  | None => indexes
  | Some n => take (Z.to_nat (Z.max 1 n)) indexes
  end.

(** The FitQuality key of a geography id, when it has the four fields. *)
Definition key_of (g : geog_id) : option BlockGroupID :=
  s ← g !! "state"; c ← g !! "county"; t ← g !! "tract";
  b ← g !! "block group"; Some (mkBlockGroupID s c t b).

(** The FitQuality entries the reassembly loop writes, in slot order: one
    for each slot whose future holds a result. *)
Definition fit_entries
    (slots : list (geog_id * (exn + (households * people * Q * Q))))
  : list (BlockGroupID * FitQuality) :=
  omap (λ slot,
          match slot.2 with
          | inl _ => None
          | inr (_, _, chisq, p) =>
              key ← key_of slot.1; Some (key, mkFitQuality chisq p)
          end) slots.

(** The results held by the slots of the reassembly loop, each with the
    geography id of its slot. *)
Definition results_of
    (slots : list (geog_id * (exn + (households * people * Q * Q))))
  : list (geog_id * (households * people * Q * Q)) :=
  omap (λ slot, match slot.2 with
                | inl _ => None
                | inr r => Some (slot.1, r)
                end) slots.

(** The cells of the household rows of a kept result once the fields of
    the geography id are written over them, and the cells of its person
    rows. *)
Definition located_cells (s : geog_id * (households * people * Q * Q))
  : list columns :=
  (λ r, s.1 ∪ hh_cols r) <$> s.2.1.1.1.

Definition person_cells (s : geog_id * (households * people * Q * Q))
  : list columns :=
  p_cols <$> s.2.1.1.2.

(** The log of [s'] is the log of [s] with records added, none of them a
    warning other than the one on the iteration cap. *)
Definition log_grows_quietly (s s' : synth_state) : Prop :=
  ∃ new, o_log s' = o_log s ++ new ∧
         ∀ m, Log WARN m ∈ new → m = Iterations 20000.

(** A state with its log replaced. *)
Definition with_log (l : list event) (s : synth_state) : synth_state :=
  SynthState (o_h_marg s) (o_p_marg s) (o_h_jd s) (o_p_jd s)
             (o_h_pums s) (o_p_pums s) l.

(** [m] returns the same value and leaves the same tables whatever the
    log holds when it starts. *)
Definition log_blind {A} (m : M synth_state A) : Prop :=
  ∀ s l, ∃ l', m (with_log l s) = ((m s).1, with_log l' (m s).2).



(** The six tables of [s'] are those of [s]. *)
Definition tables_kept (s s' : synth_state) : Prop :=
  (o_h_marg s', o_p_marg s', o_h_jd s', o_p_jd s', o_h_pums s', o_p_pums s')
  = (o_h_marg s, o_p_marg s, o_h_jd s, o_p_jd s, o_h_pums s, o_p_pums s).

(** The tables of [s'] are those of [s], but for the person cat_ids:
    these are as in [s], or moved past the household cat_ids in the joint
    distribution and in the sample alike. *)
Definition person_ids_kept_or_moved (s s' : synth_state) : Prop :=
  o_h_marg s' = o_h_marg s ∧ o_p_marg s' = o_p_marg s ∧
  o_h_jd s' = o_h_jd s ∧ o_h_pums s' = o_h_pums s ∧
  ((o_p_jd s' = o_p_jd s ∧ o_p_pums s' = o_p_pums s) ∨
   (o_p_jd s' = jd_shift_cat_id (p_starting_cat_id_of (o_h_jd s)) (o_p_jd s) ∧
    o_p_pums s'
    = pums_shift_cat_id (p_starting_cat_id_of (o_h_jd s)) (o_p_pums s))).

(** The household table and the person table of a result of
    [synthesize]. *)
Definition households_of (r : households * people * Q * Q) : households :=
  r.1.1.1.

Definition people_of (r : households * people * Q * Q) : people := r.1.1.2.

(** [r] is what [synthesize] returns when it is called with offset
    [start] on the tables the recipe has for [g]. *)
Definition synthesized_for `{Collaborators} (recipe : Recipe) (mzs jzs : Q)
    (g : geog_id) (start : Z) (r : households * people * Q * Q) : Prop :=
  ∃ args,
    pooled (geog_preprocessing recipe mzs jzs g) = inr args ∧
    pooled (call_synthesize args start) = inr r.

(** [rs] holds what [synthesize] returned in the loop of the sequential
    driver, geography after geography, each call made with the offset the
    loop had reached. *)
Fixpoint sequential_trace `{Collaborators} (recipe : Recipe) (mzs jzs : Q)
    (gs : list geog_id) (start : Z)
    (rs : list (households * people * Q * Q)) : Prop :=
  match gs, rs with
  | [], [] => True
  | g :: gs, r :: rs =>
      synthesized_for recipe mzs jzs g start r ∧
      sequential_trace recipe mzs jzs gs
        (next_index_start (append_location_identifiers g (households_of r))
           start) rs
  | _, _ => False
  end.

(** The household tables of the sequential driver, one per geography. *)
Definition located_tables (gs : list geog_id)
    (rs : list (households * people * Q * Q)) : list households :=
  zip_with (λ g r, append_location_identifiers g (households_of r)) gs rs.

(** The household and person tables the reassembly loop makes of the
    results it keeps, from the running offset [start] on. *)
Fixpoint reassembled (start : Z)
    (kept : list (geog_id * (households * people * Q * Q)))
  : households * people :=
  match kept with
  | [] => ([], [])
  | (g, r) :: rest =>
      let hh :=
        shift_index start (append_location_identifiers g (households_of r)) in
      let tables := reassembled (next_index_start hh start) rest in
      (hh ++ tables.1, shift_hh_id start (people_of r) ++ tables.2)
  end.

(** Inputs for running [synthesize] on the small instance. *)
Module Inputs.

(** A marginal with a zero cell and a cell below the substitute. *)
Definition small_cell : synth_state :=
  SynthState [("hhsize", "1", 0%Q); ("hhsize", "2", 0.005%Q)] []
             (mkJd [] [] []) (mkJd [] [] []) [] [] [].

(** Tables of counts, one of them zero. *)
Definition counts : synth_state :=
  SynthState [("cat1", "", 0%Q); ("cat2", "", 40%Q)]
             [("age", "young", 3%Q); ("age", "old", 0%Q)]
             (mkJd [["a"]; ["b"]] [CatId 0; CatId 1] [0%Q; 2%Q])
             (mkJd [["young"]; ["old"]] [CatId 0; CatId 1] [5%Q; 0%Q])
             [mkPums 7 (CatId 0) ∅]
             [mkPums 7 (CatId 0) ∅; mkPums 7 (CatId 1) ∅] [].

(** Person categories numbered from 1. *)
Definition one_based : synth_state :=
  SynthState [("cat1", "", 1%Q)] [("age", "any", 1%Q)]
             (mkJd [["a"]; ["b"]] [CatId 0; CatId 1] [1%Q; 2%Q])
             (mkJd [["young"]; ["old"]] [CatId 1; CatId 2] [5%Q; 1%Q])
             [mkPums 7 (CatId 0) ∅]
             [mkPums 7 (CatId 1) ∅; mkPums 7 (CatId 2) ∅] [].

(** A person category numbered -1. *)
Definition negative_id : synth_state :=
  SynthState [("cat1", "", 1%Q)] [("age", "any", 1%Q)]
             (mkJd [["a"]; ["b"]] [CatId 0; CatId 1] [1%Q; 2%Q])
             (mkJd [["young"]; ["old"]] [CatId (-1); CatId 0] [5%Q; 1%Q])
             [mkPums 7 (CatId 0) ∅]
             [mkPums 7 (CatId (-1)) ∅; mkPums 7 (CatId 0) ∅] [].

(** A household joint distribution without rows. *)
Definition no_household_rows : synth_state :=
  SynthState [("cat1", "", 1%Q)] [("age", "any", 1%Q)]
             (mkJd [] [] [])
             (mkJd [["young"]; ["old"]] [CatId 0; CatId 1] [5%Q; 1%Q])
             [mkPums 7 (CatId 0) ∅]
             [mkPums 7 (CatId 0) ∅; mkPums 7 (CatId 1) ∅] [].

(** Household categories at both ends of the int64 range. *)
Definition at_the_int64_ends : synth_state :=
  SynthState [("cat1", "", 1%Q)] [("age", "any", 1%Q)]
             (mkJd [["a"]; ["b"]]
                   [CatId (- 2 ^ 63); CatId (2 ^ 63 - 1)] [1%Q; 2%Q])
             (mkJd [["any"]] [CatId 0] [5%Q])
             [mkPums 7 (CatId (2 ^ 63 - 1)) ∅] [mkPums 7 (CatId 0) ∅] [].

(** A person category at the upper end of the int64 range. *)
Definition person_id_at_the_int64_end : synth_state :=
  SynthState [("cat1", "", 1%Q)] [("age", "any", 1%Q)]
             (mkJd [["a"]; ["b"]] [CatId (- 2 ^ 63); CatId 0] [1%Q; 2%Q])
             (mkJd [["young"]; ["old"]] [CatId 0; CatId (2 ^ 63 - 1)]
                   [5%Q; 1%Q])
             [mkPums 7 (CatId 0) ∅]
             [mkPums 7 (CatId 0) ∅; mkPums 7 (CatId (2 ^ 63 - 1)) ∅] [].

(** A household marginal without cells. *)
Definition no_household_marginal : synth_state :=
  SynthState [] [("age", "any", 1%Q)]
             (mkJd [["a"]] [CatId 0] [1%Q]) (mkJd [["any"]] [CatId 0] [1%Q])
             [mkPums 7 (CatId 0) ∅] [mkPums 7 (CatId 0) ∅] [].

(** Category totals 2, 2 and 1: their mean is 5/3. *)
Definition uneven : synth_state :=
  SynthState [("a", "", 2%Q); ("b", "", 2%Q); ("c", "", 1%Q)]
             [("age", "any", 1%Q)]
             (mkJd [["a"]] [CatId 0] [1%Q]) (mkJd [["any"]] [CatId 0] [1%Q])
             [mkPums 7 (CatId 0) ∅] [mkPums 7 (CatId 0) ∅] [].

End Inputs.

(** * Properties *)

(** ** The monad *)

Lemma bind_run {S A B} (m : M S A) (f : A → M S B) (s : S) :
  (m ≫= f) s =
  match m s with
  | (inl e, s') => (inl e, s')
  | (inr x, s') => f x s'
  end.
Proof. reflexivity. Qed.

Lemma bind_inr {S A B} (m : M S A) (f : A → M S B) s x s' :
  m s = (inr x, s') → (m ≫= f) s = f x s'.
Proof. intros E. by rewrite bind_run, E. Qed.

Lemma bind_inv {S A B} (m : M S A) (f : A → M S B) s y s2 :
  (m ≫= f) s = (inr y, s2) →
  ∃ x s1, m s = (inr x, s1) ∧ f x s1 = (inr y, s2).
Proof.
  rewrite bind_run. destruct (m s) as [[e|x] s1]; [done|]. eauto.
Qed.

Section Keeps.
Context {S : Type} (R : relation S) `{!PreOrder R}.

Lemma keeps_ret {A} (x : A) : keeps R (mret x).
Proof. intros s. reflexivity. Qed.

Lemma keeps_call {A} (r : exn + A) : keeps R (call r).
Proof. intros s. reflexivity. Qed.

Lemma keeps_gets {A} (f : S → A) : keeps R (gets f).
Proof. intros s. reflexivity. Qed.

Lemma keeps_modify (f : S → S) : (∀ s, R s (f s)) → keeps R (modify f).
Proof. intros Hf s. apply Hf. Qed.

Lemma keeps_bind {A B} (m : M S A) (f : A → M S B) :
  keeps R m → (∀ x, keeps R (f x)) → keeps R (m ≫= f).
Proof.
  intros Hm Hf s. rewrite bind_run. specialize (Hm s).
  destruct (m s) as [[e|x] s1]; [exact Hm|].
  etransitivity; [exact Hm|apply Hf].
Qed.
End Keeps.

#[global] Instance same_frame_preorder : PreOrder same_frame.
Proof.
  split.
  - by intros s.
  - intros s1 s2 s3 (?&?&?&?&?&?) (?&?&?&?&?&?).
    repeat split; congruence.
Qed.

Ltac keeps_steps :=
  repeat first
    [ apply keeps_ret; apply _
    | apply keeps_call; apply _
    | apply keeps_gets; apply _
    | apply keeps_modify; intros ?; by repeat split
    | apply keeps_bind; [apply _| |intros ?]
    | match goal with |- keeps _ (match ?x with _ => _ end) => destruct x end ].

Lemma run_succeeded {S A} (r : (exn + A) * S) :
  succeeded r.1 = true → ∃ x s, r = (inr x, s).
Proof. destruct r as [[e|x] s]; [done|]. by exists x, s. Qed.

(** ** Zero guard *)

Lemma replace0_zero_guarded sub l : zero_guarded sub l (replace0 sub <$> l).
Proof.
  induction l as [|v l IH]; constructor; [|exact IH].
  unfold replace0. by destruct (Qeq_bool v 0).
Qed.

Lemma replace0_at_least sub l :
  Forall (zero_or_at_least sub) l →
  Forall (λ v, (sub <= v)%Q) (replace0 sub <$> l).
Proof.
  induction 1 as [|v l Hv _ IH]; constructor; [|exact IH].
  unfold replace0. destruct (Qeq_bool v 0) eqn:E.
  - apply Qle_refl.
  - destruct Hv as [Hz|Hle]; [|exact Hle].
    apply Qeq_bool_iff in Hz. congruence.
Qed.

Lemma marginal_replace0_values sub (m : marginal) :
  (marginal_replace0 sub m).*2 = replace0 sub <$> m.*2.
Proof.
  unfold marginal_replace0. rewrite <- !list_fmap_compose.
  apply list_fmap_ext. by intros _ [[??]?] _.
Qed.

Lemma marginal_replace0_keys sub (m : marginal) :
  (marginal_replace0 sub m).*1 = m.*1.
Proof.
  unfold marginal_replace0. rewrite <- !list_fmap_compose.
  apply list_fmap_ext. by intros _ [[??]?] _.
Qed.

Lemma zero_guard_run mzs jzs s :
  zero_guard mzs jzs s =
  (inr (marginal_replace0 mzs (o_h_marg s), marginal_replace0 mzs (o_p_marg s)),
   set_p_jd (jd_replace0_frequency jzs)
     (set_h_jd (jd_replace0_frequency jzs) s)).
Proof. reflexivity. Qed.

(** C6, as the code has it.  The zero guard of [synthesize] replaces
    exactly the cells equal to zero by the substitute and keeps every other
    cell, in both marginals (whose keys stay) and in both [frequency]
    columns.  The values that result are all at least the substitute when
    no nonzero cell of the table was below it, as in a table of counts. *)
Theorem zero_guard_replaces_zero_cells (mzs jzs : Q) (s : synth_state) :
  ∃ h_marg p_marg s',
    zero_guard mzs jzs s = (inr (h_marg, p_marg), s') ∧
    (h_marg.*1 = (o_h_marg s).*1 ∧ p_marg.*1 = (o_p_marg s).*1) ∧
    (zero_guarded mzs (o_h_marg s).*2 h_marg.*2 ∧
     zero_guarded mzs (o_p_marg s).*2 p_marg.*2 ∧
     zero_guarded jzs (jd_frequency (o_h_jd s)) (jd_frequency (o_h_jd s')) ∧
     zero_guarded jzs (jd_frequency (o_p_jd s)) (jd_frequency (o_p_jd s'))) ∧
    (Forall (zero_or_at_least mzs) (o_h_marg s).*2 →
     Forall (λ v, (mzs <= v)%Q) h_marg.*2) ∧
    (Forall (zero_or_at_least mzs) (o_p_marg s).*2 →
     Forall (λ v, (mzs <= v)%Q) p_marg.*2) ∧
    (Forall (zero_or_at_least jzs) (jd_frequency (o_h_jd s)) →
     Forall (λ v, (jzs <= v)%Q) (jd_frequency (o_h_jd s'))) ∧
    (Forall (zero_or_at_least jzs) (jd_frequency (o_p_jd s)) →
     Forall (λ v, (jzs <= v)%Q) (jd_frequency (o_p_jd s'))).
Proof.
  eexists _, _, _. split; [apply zero_guard_run|].
  rewrite !marginal_replace0_keys, !marginal_replace0_values. simpl.
  repeat split; auto using replace0_zero_guarded, replace0_at_least.
Qed.

(** With substitute 0.01 on tables of counts: every value is at least 0.01
    afterwards. *)
Lemma zero_guard_on_counts :
  (Forall (zero_or_at_least 0.01) (o_h_marg Inputs.counts).*2 ∧
   Forall (zero_or_at_least 0.01) (jd_frequency (o_p_jd Inputs.counts))) ∧
  ∃ h_marg p_marg s',
    zero_guard 0.01 0.01 Inputs.counts = (inr (h_marg, p_marg), s') ∧
    Forall (λ v, (0.01 <= v)%Q) h_marg.*2 ∧
    Forall (λ v, (0.01 <= v)%Q) (jd_frequency (o_p_jd s')).
Proof.
  assert (H1 : Forall (zero_or_at_least 0.01) (o_h_marg Inputs.counts).*2).
  { repeat apply Forall_cons_2; [by left|by right|apply Forall_nil_2]. }
  assert (H2 : Forall (zero_or_at_least 0.01)
                 (jd_frequency (o_p_jd Inputs.counts))).
  { repeat apply Forall_cons_2; [by right|by left|apply Forall_nil_2]. }
  split; [by split|].
  destruct (zero_guard_replaces_zero_cells 0.01 0.01 Inputs.counts)
    as (h & p & s' & E & _ & _ & Hh & _ & _ & Hp).
  exists h, p, s'. split; [exact E|]. split; [by apply Hh|by apply Hp].
Defined.

(** C6, as stated, fails: a nonzero cell below the substitute is kept, so
    the minimum after the guard with substitute 0.01 is below 0.01. *)
Lemma zero_guard_keeps_small_cell :
  ∃ h_marg p_marg s',
    zero_guard 0.01 0.001 Inputs.small_cell = (inr (h_marg, p_marg), s') ∧
    h_marg.*2 = [0.01%Q; 0.005%Q] ∧
    ¬ Forall (λ v, (0.01 <= v)%Q) h_marg.*2.
Proof.
  eexists _, _, _. split; [reflexivity|]. split; [reflexivity|].
  intros Hall. apply Forall_cons_1 in Hall as [_ Hall].
  apply Forall_cons_1 in Hall as [Hle _]. by vm_compute in Hle.
Qed.

(** ** Category namespacer *)

Lemma wrap64_int64 (z : Z) : int64 z → wrap64 z = z.
Proof. unfold int64, wrap64. intros Hz. rewrite Z.mod_small; lia. Qed.

Lemma foldl_max_spec (l : list Z) (x : Z) :
  (foldl Z.max x l ∈ x :: l) ∧ Forall (λ c, (c ≤ foldl Z.max x l)%Z) (x :: l).
Proof.
  revert x. induction l as [|y l IH]; intros x; simpl.
  - split; [left|]. apply Forall_singleton. lia.
  - destruct (IH (Z.max x y)) as [Hin Hall].
    apply Forall_cons_1 in Hall as [Hxy Hall]. split.
    + apply elem_of_cons in Hin as [->|Hin]; [|by do 2 right].
      destruct (Z.max_spec x y) as [[_ ->]|[_ ->]]; [right|]; left.
    + repeat apply Forall_cons_2; [lia|lia|exact Hall].
Qed.

Lemma foldl_cat_max_ids (l : list Z) (x : Z) :
  foldl cat_max (CatId x) (CatId <$> l) = CatId (foldl Z.max x l).
Proof. revert x. induction l as [|y l IH]; intros x; [done|apply IH]. Qed.

(** The maximum of an int64 column that has a row. *)
Lemma max_cat_id_ids (hs : list Z) (m : Z) :
  m ∈ hs → Forall (λ c, (c ≤ m)%Z) hs → max_cat_id (CatId <$> hs) = CatId m.
Proof.
  destruct hs as [|x r]; [by intros ?%elem_of_nil|]. intros Hm Hle.
  unfold max_cat_id. cbn. rewrite foldl_cat_max_ids. f_equal.
  destruct (foldl_max_spec r x) as [Hin Hall].
  rewrite Forall_forall in Hle, Hall.
  specialize (Hle _ Hin). specialize (Hall _ Hm). lia.
Qed.

(** The offset on an int64 household column that has a row and whose
    maximum is not the largest int64. *)
Lemma p_starting_cat_id_ids (h_jd : jd_table) (hs : list Z) (m : Z) :
  jd_cat_id h_jd = CatId <$> hs →
  m ∈ hs → Forall (λ c, (c ≤ m)%Z) hs → int64 (m + 1) →
  p_starting_cat_id_of h_jd = CatId (m + 1).
Proof.
  intros Hh Hm Hle H64. unfold p_starting_cat_id_of.
  rewrite Hh, (max_cat_id_ids _ _ Hm Hle). cbn. by rewrite wrap64_int64.
Qed.

Lemma cat_add_ids (ps : list Z) (k : Z) :
  Forall (λ c, int64 (c + k)) ps →
  (λ c, cat_add c (CatId k)) <$> (CatId <$> ps)
  = CatId <$> ((λ c, c + k)%Z <$> ps).
Proof.
  intros Hps. rewrite <- !list_fmap_compose. apply Forall_fmap_ext.
  eapply Forall_impl; [exact Hps|]. intros c Hc. cbn.
  by rewrite wrap64_int64.
Qed.

(** C7, as the code has it.  The namespacer adds [h_jd['cat_id'].max() + 1]
    to every person cat_id of the person joint distribution and of the
    person sample, and indexes the person constraint by the new ids.  On
    int64 columns, when the household column has a row and no addition
    leaves the int64 range, every person cat_id is moved up by (max
    household cat_id + 1): the smallest one afterwards is the smallest one
    before plus that offset, which is the largest household cat_id plus
    one when the person cat_ids were numbered from 0; and no id is shared
    between the two tables when no person cat_id was negative. *)
Theorem namespaced_person_cat_ids (p_vals : list Q) (s : synth_state) :
  length p_vals = length (jd_cat_id (o_p_jd s)) →
  let k := p_starting_cat_id_of (o_h_jd s) in
  ∃ p_constraint s',
    namespace_person_cat_ids p_vals s = (inr p_constraint, s') ∧
    jd_cat_id (o_p_jd s') = (λ c, cat_add c k) <$> jd_cat_id (o_p_jd s) ∧
    pums_cat_id <$> o_p_pums s' =
      (λ c, cat_add c k) <$> (pums_cat_id <$> o_p_pums s) ∧
    (p_constraint.*1 = jd_cat_id (o_p_jd s') ∧ p_constraint.*2 = p_vals) ∧
    o_h_jd s' = o_h_jd s ∧
    ∀ hs ps m,
      jd_cat_id (o_h_jd s) = CatId <$> hs →
      jd_cat_id (o_p_jd s) = CatId <$> ps →
      m ∈ hs → Forall (λ c, (c ≤ m)%Z) hs →
      int64 (m + 1) → Forall (λ c, int64 (c + (m + 1))) ps →
      let ps' := (λ c, c + (m + 1))%Z <$> ps in
      jd_cat_id (o_p_jd s') = CatId <$> ps' ∧
      (∀ lo, minimum_is lo ps → minimum_is (lo + (m + 1)) ps') ∧
      (minimum_is 0 ps → minimum_is (m + 1) ps') ∧
      (Forall (λ c, (0 ≤ c)%Z) ps →
       ∀ c, c ∈ jd_cat_id (o_h_jd s') → c ∉ jd_cat_id (o_p_jd s')).
Proof.
  intros Hlen k.
  exists (zip ((λ c, cat_add c k) <$> jd_cat_id (o_p_jd s)) p_vals),
    (set_p_pums (pums_shift_cat_id k) (set_p_jd (jd_shift_cat_id k) s)).
  split.
  { cbv [namespace_person_cat_ids mbind M_bind gets call modify].
    cbn [set_p_jd set_p_pums o_p_jd o_p_pums o_h_jd jd_shift_cat_id
         jd_cat_id].
    unfold set_index. by rewrite decide_True by by rewrite length_fmap. }
  cbn [set_p_jd set_p_pums o_p_jd o_p_pums o_h_jd jd_shift_cat_id jd_cat_id].
  split; [done|]. split.
  { unfold pums_shift_cat_id. by rewrite <- !list_fmap_compose. }
  split.
  { split; [apply fst_zip|apply snd_zip]; rewrite length_fmap; lia. }
  split; [done|].
  intros hs ps m Hh Hp Hm Hle H64 Hps.
  set (ps' := (λ c, c + (m + 1))%Z <$> ps).
  assert (Hk : k = CatId (m + 1)) by by eapply p_starting_cat_id_ids.
  assert (Hnew : (λ c, cat_add c k) <$> jd_cat_id (o_p_jd s) = CatId <$> ps').
  { rewrite Hk, Hp. by apply cat_add_ids. }
  assert (Hmin : ∀ lo, minimum_is lo ps → minimum_is (lo + (m + 1)) ps').
  { intros lo [Hin Hall]. split.
    - apply list_elem_of_fmap. by exists lo.
    - apply Forall_fmap. eapply Forall_impl; [exact Hall|]. cbn. lia. }
  split; [done|]. split; [done|]. split.
  { intros H0. by apply (Hmin 0%Z) in H0. }
  intros Hnonneg c Hc Hin. rewrite Hnew in Hin. rewrite Hh in Hc.
  apply list_elem_of_fmap in Hc as (h & -> & Hc).
  apply list_elem_of_fmap in Hin as (p' & [= ->] & Hin).
  apply list_elem_of_fmap in Hin as (p & -> & Hin).
  rewrite Forall_forall in Hle, Hnonneg.
  specialize (Hle _ Hc). specialize (Hnonneg _ Hin). lia.
Qed.

Lemma namespaced_person_cat_ids_zero_based :
  ∃ p_constraint s',
    namespace_person_cat_ids [5%Q; 0%Q] Inputs.counts
      = (inr p_constraint, s') ∧
    jd_cat_id (o_p_jd s') = [CatId 2; CatId 3] ∧
    minimum_is (1 + 1) [2; 3]%Z ∧
    (∀ c, c ∈ jd_cat_id (o_h_jd s') → c ∉ jd_cat_id (o_p_jd s')).
Proof.
  destruct (namespaced_person_cat_ids [5%Q; 0%Q] Inputs.counts eq_refl)
    as (c & s' & E & _ & _ & _ & _ & Hint).
  destruct (Hint [0; 1]%Z [0; 1]%Z 1%Z eq_refl eq_refl)
    as (Hids & _ & Hmin & Hdisj).
  - right. left.
  - repeat apply Forall_cons_2; [lia|lia|apply Forall_nil_2].
  - unfold int64. lia.
  - repeat apply Forall_cons_2; [unfold int64; lia..|apply Forall_nil_2].
  - exists c, s'. split; [exact E|]. split; [exact Hids|]. split.
    + apply Hmin. split; [left|].
      repeat apply Forall_cons_2; [lia|lia|apply Forall_nil_2].
    + apply Hdisj. repeat apply Forall_cons_2; [lia|lia|apply Forall_nil_2].
Defined.

(** C7, as stated, fails.  With person categories numbered from 1 the
    smallest person cat_id after the step is max household cat_id + 2.
    With a person category numbered -1 a person cat_id after the step is
    a household cat_id.  With a household joint distribution without rows
    the person cat_ids after the step are NaN.  With household cat_ids
    at both ends of the int64 range the offset wraps around and person
    cat_id 0 becomes a household cat_id.  And with a person cat_id at the
    upper end of the int64 range that id wraps around: numbered from 0,
    the person cat_ids have the minimum -2^63 afterwards, a household
    cat_id. *)
Lemma namespacer_one_based_minimum :
  (∃ p_constraint s',
     namespace_person_cat_ids [5%Q; 1%Q] Inputs.one_based
       = (inr p_constraint, s') ∧
     max_cat_id (jd_cat_id (o_h_jd s')) = CatId 1 ∧
     jd_cat_id (o_p_jd s') = [CatId 3; CatId 4] ∧
     ¬ minimum_is (1 + 1) [3; 4]%Z) ∧
  (∃ p_constraint s',
     namespace_person_cat_ids [5%Q; 1%Q] Inputs.negative_id
       = (inr p_constraint, s') ∧
     jd_cat_id (o_h_jd s') = [CatId 0; CatId 1] ∧
     jd_cat_id (o_p_jd s') = [CatId 1; CatId 2]) ∧
  (∃ p_constraint s',
     namespace_person_cat_ids [5%Q; 1%Q] Inputs.no_household_rows
       = (inr p_constraint, s') ∧
     jd_cat_id (o_p_jd s') = [CatNaN; CatNaN]) ∧
  (∃ p_constraint s',
     namespace_person_cat_ids [5%Q] Inputs.at_the_int64_ends
       = (inr p_constraint, s') ∧
     jd_cat_id (o_h_jd s') = [CatId (- 2 ^ 63); CatId (2 ^ 63 - 1)] ∧
     jd_cat_id (o_p_jd s') = [CatId (- 2 ^ 63)]) ∧
  (∃ p_constraint s',
     namespace_person_cat_ids [5%Q; 1%Q] Inputs.person_id_at_the_int64_end
       = (inr p_constraint, s') ∧
     jd_cat_id (o_h_jd s') = [CatId (- 2 ^ 63); CatId 0] ∧
     jd_cat_id (o_p_jd s') = [CatId 1; CatId (- 2 ^ 63)]).
Proof.
  split; [|split; [|split; [|split]]].
  - eexists _, _. split; [reflexivity|]. do 2 (split; [reflexivity|]).
    intros [Hin _].
    repeat (apply elem_of_cons in Hin as [?|Hin]; [done|]).
    by apply elem_of_nil in Hin.
  - eexists _, _. split; [reflexivity|]. split; reflexivity.
  - eexists _, _. split; reflexivity.
  - eexists _, _. split; [reflexivity|]. split; reflexivity.
  - eexists _, _. split; [reflexivity|]. split; reflexivity.
Qed.

(** ** Running [synthesize] *)

Ltac run_monad_in H :=
  cbv [synthesize synthesize_fit synthesize_prepare synthesize_weights draw
       zero_guard namespace_person_cat_ids
       mbind M_bind mret M_ret gets call modify logger emit] in H.

Section SynthesizeFacts.
Context `{Collaborators}.

(** What a successful run of lines 33-66 leaves behind. *)
Lemma synthesize_prepare_inv mzs jzs s a s' :
  synthesize_prepare mzs jzs s = (inr a, s') →
  let k := p_starting_cat_id_of (o_h_jd s) in
  ia_h_marg a = marginal_replace0 mzs (o_h_marg s) ∧
  ia_h_pums a = o_h_pums s ∧
  ia_p_pums a = pums_shift_cat_id k (o_p_pums s) ∧
  o_h_marg s' = o_h_marg s ∧ o_p_marg s' = o_p_marg s ∧
  o_h_pums s' = o_h_pums s ∧
  o_h_jd s' = jd_replace0_frequency jzs (o_h_jd s) ∧
  o_p_jd s' = jd_shift_cat_id k (jd_replace0_frequency jzs (o_p_jd s)) ∧
  o_p_pums s' = pums_shift_cat_id k (o_p_pums s).
Proof.
  intros E. run_monad_in E. cbn in E.
  repeat case_match; simplify_eq. cbn. by repeat split.
Qed.

(** Lines 69-85 leave the tables alone and only add log records. *)
Lemma synthesize_weights_inv a s d s' :
  synthesize_weights a s = (inr d, s') →
  ∃ w f it,
    household_weights (ia_household_freq a) (ia_person_freq a)
      (ia_h_constraint a) (ia_p_constraint a) 20000 = inr (w, f, it) ∧
    num_households_of (ia_h_marg a) = inr (da_num_households d) ∧
    d = DrawArgs (da_num_households d) (ia_h_pums a) (ia_p_pums a)
          (ia_household_freq a) (ia_h_constraint a) (ia_p_constraint a) w ∧
    (o_h_marg s', o_p_marg s', o_h_jd s', o_p_jd s', o_h_pums s', o_p_pums s')
    = (o_h_marg s, o_p_marg s, o_h_jd s, o_p_jd s, o_h_pums s, o_p_pums s).
Proof.
  intros E. run_monad_in E. cbn in E. unfold max_iterations in E.
  repeat case_match; simplify_eq; cbn; eexists _, _, _; by repeat split.
Qed.

(** The count handed to the drawer. *)
Lemma synthesize_fit_count mzs jzs s a s' :
  synthesize_fit mzs jzs s = (inr a, s') →
  num_households_of (marginal_replace0 mzs (o_h_marg s))
  = inr (da_num_households a).
Proof.
  unfold synthesize_fit. intros E.
  apply bind_inv in E as (pre & s1 & E1 & E2).
  apply synthesize_prepare_inv in E1 as (Hmarg & _).
  apply synthesize_weights_inv in E2 as (w & f & it & _ & Hn & _).
  by rewrite Hmarg in Hn.
Qed.

(** Tables that no statement of [synthesize] assigns to keep their value
    whatever the outcome. *)
Lemma synthesize_frame mzs jzs start :
  keeps same_frame (synthesize mzs jzs start).
Proof.
  unfold synthesize, synthesize_fit, synthesize_prepare, synthesize_weights,
    zero_guard, namespace_person_cat_ids, draw, logger.
  keeps_steps.
Qed.

End SynthesizeFacts.

(** ** Number of households to draw *)

Lemma int_nonneg_floor (q : Q) : (0 <= q)%Q → int q = Qfloor q.
Proof.
  destruct q as [n d]. unfold Qle, int. cbn. intros Hn.
  apply Z.quot_div_nonneg; lia.
Qed.

(** [int(x)] returns for the finite floats, with their value cut off. *)
Lemma int_of_float_inv (x : float) (n : Z) :
  int_of_float x = inr n → ∃ q, float_value x = Some q ∧ n = int q.
Proof.
  destruct x as [sg|sg| |sg m e]; cbn; try done.
  - intros [= <-]. by exists 0%Q.
  - intros [= <-]. by eexists.
Qed.

(** C5, as the code has it.  The number of households [synthesize] passes
    to the drawer is [int] of the float that [.mean()] returns for the
    household marginal totals, one per category name, after zero
    substitution: that float cut off toward zero, which rounds a
    non-negative one down.  For the marginal cat1: 0, cat2: 40 and
    substitute 0.01 the float mean is 20.005 up to its rounding and the
    count is 20, which is also the rounded mean. *)
Theorem num_households_is_truncated_mean `{Collaborators}
    (mzs jzs : Q) (start : Z) (s s' : synth_state) (a : draw_args) :
  synthesize_fit mzs jzs s = (inr a, s') →
  (∃ q,
     float_value
       (mean (groupby_level0_sum (marginal_replace0 mzs (o_h_marg s))).*2)
       = Some q ∧
     da_num_households a = int q ∧
     ((0 <= q)%Q → da_num_households a = Qfloor q)) ∧
  synthesize mzs jzs start s =
    (draw_households (da_num_households a) (da_h_pums a) (da_p_pums a)
       (da_household_freq a) (da_h_constraint a) (da_p_constraint a)
       (da_best_weights a) start, s') ∧
  (∃ q,
     float_value
       (mean (H := Demo.collaborators)
          (groupby_level0_sum (H := Demo.collaborators)
             (marginal_replace0 0.01
                [("cat1", "", 0%Q); ("cat2", "", 40%Q)])).*2)
       = Some q ∧
     (20.005 - (1 # 10 ^ 14) <= q)%Q ∧ (q <= 20.005 + (1 # 10 ^ 14))%Q ∧
     int q = 20%Z ∧ round_half_even q = 20%Z).
Proof.
  intros E. split; [|split].
  - unfold synthesize_fit in E. apply bind_inv in E as (pre & s1 & E1 & E2).
    apply synthesize_prepare_inv in E1 as (Hmarg & _).
    apply synthesize_weights_inv in E2 as (w & f & it & _ & Hn & _).
    rewrite Hmarg in Hn. unfold num_households_of in Hn.
    apply int_of_float_inv in Hn as (q & Hq & Hn).
    exists q. split; [done|]. split; [done|].
    intros H0. rewrite Hn. by apply int_nonneg_floor.
  - unfold synthesize. by rewrite (bind_inr _ _ _ _ _ E).
  - eexists. split; [vm_compute; reflexivity|].
    split; [by vm_compute|]. split; [by vm_compute|].
    split; vm_compute; reflexivity.
Qed.

Lemma num_households_on_counts :
  ∃ a s',
    synthesize_fit (H := Demo.collaborators) 0.01 0.001 Inputs.counts
      = (inr a, s') ∧
    da_num_households a = 20%Z.
Proof.
  destruct (run_succeeded
              (synthesize_fit (H := Demo.collaborators) 0.01 0.001
                 Inputs.counts)) as (a & s' & E); [vm_compute; reflexivity|].
  exists a, s'. split; [exact E|].
  destruct (num_households_is_truncated_mean 0.01 0.001 0 _ _ _ E)
    as [(q & Hq & -> & _) _].
  vm_compute in Hq. by injection Hq as <-.
Defined.

(** C5, as stated, fails: category totals 2, 2 and 1 have the float mean
    1.6666666666666667, which rounds to 2; the drawer is asked for 1
    household. *)
Lemma num_households_not_rounded :
  ∃ a s' q,
    synthesize_fit (H := Demo.collaborators) 0.01 0.001 Inputs.uneven
      = (inr a, s') ∧
    float_value
      (mean (H := Demo.collaborators)
         (groupby_level0_sum (H := Demo.collaborators)
            (marginal_replace0 0.01 (o_h_marg Inputs.uneven))).*2)
      = Some q ∧
    ((5 # 3) - (1 # 10 ^ 15) <= q)%Q ∧ (q <= (5 # 3) + (1 # 10 ^ 15))%Q ∧
    round_half_even q = 2%Z ∧
    da_num_households a = 1%Z.
Proof.
  destruct (run_succeeded
              (synthesize_fit (H := Demo.collaborators) 0.01 0.001
                 Inputs.uneven)) as (a & s' & E); [vm_compute; reflexivity|].
  exists a, s'. eexists. split; [exact E|].
  split; [vm_compute; reflexivity|]. split; [by vm_compute|].
  split; [by vm_compute|]. split; [vm_compute; reflexivity|].
  pose proof (synthesize_fit_count _ _ _ _ _ E) as Hn.
  assert (num_households_of (H := Demo.collaborators)
            (marginal_replace0 0.01 (o_h_marg Inputs.uneven)) = inr 1%Z)
    as H1 by (vm_compute; reflexivity).
  congruence.
Qed.

(** ** Iteration cap *)

(** C8.  When the weight solver, called with [max_iterations] = 20000,
    reports 20000 iterations, [synthesize] logs the count as a warning and
    its outcome is the outcome of the drawer called with the weights the
    solver returned. *)
Theorem iteration_cap_only_warns `{Collaborators}
    (mzs jzs : Q) (start : Z) (s s1 : synth_state) (pre : ipu_args)
    (w : weights) (f : ipu_fit) (n : Z) :
  synthesize_prepare mzs jzs s = (inr pre, s1) →
  household_weights (ia_household_freq pre) (ia_person_freq pre)
    (ia_h_constraint pre) (ia_p_constraint pre) 20000 = inr (w, f, 20000%Z) →
  num_households_of (ia_h_marg pre) = inr n →
  ∃ s2,
    synthesize mzs jzs start s =
      (draw_households n (ia_h_pums pre) (ia_p_pums pre)
         (ia_household_freq pre) (ia_h_constraint pre) (ia_p_constraint pre)
         w start, s2) ∧
    o_log s2 =
      o_log s1 ++
      [Log INFO (Text "Running ipu"); Log INFO Timing;
       Log DEBUG (Text "IPU weights:");
       Log DEBUG (Dump "best_weights.describe()");
       Log DEBUG (Dump "Fit quality"); Log WARN (Iterations 20000)].
Proof.
  intros Hpre Hw Hn. unfold synthesize, synthesize_fit.
  rewrite bind_run, bind_run, Hpre.
  cbv [synthesize_weights draw mbind M_bind mret M_ret call modify logger
       max_iterations].
  rewrite Hw. cbn. rewrite Hn. cbn.
  eexists. split; [reflexivity|]. cbn. by rewrite <- !app_assoc.
Qed.

Lemma iteration_cap_on_counts :
  ∃ pre s1 n r s2,
    synthesize_prepare (H := Demo.collaborators) 0.01 0.001 Inputs.counts
      = (inr pre, s1) ∧
    household_weights (ia_household_freq pre) (ia_person_freq pre)
      (ia_h_constraint pre) (ia_p_constraint pre) 20000
      = inr ((), (), 20000%Z) ∧
    num_households_of (H := Demo.collaborators) (ia_h_marg pre) = inr n ∧
    synthesize (H := Demo.collaborators) 0.01 0.001 0 Inputs.counts
      = (r, s2) ∧
    Log WARN (Iterations 20000) ∈ o_log s2.
Proof.
  destruct (run_succeeded
              (synthesize_prepare (H := Demo.collaborators) 0.01 0.001
                 Inputs.counts)) as (pre & s1 & E); [vm_compute; reflexivity|].
  destruct (synthesize_prepare_inv _ _ _ _ _ E) as (Hmarg & _).
  assert (Hn : num_households_of (H := Demo.collaborators) (ia_h_marg pre)
               = inr 20%Z).
  { rewrite Hmarg. vm_compute. reflexivity. }
  destruct (iteration_cap_only_warns (H := Demo.collaborators)
              0.01%Q 0.001%Q 0%Z _ _ _ () () _ E eq_refl Hn)
    as (s2 & E2 & Hlog).
  eexists pre, s1, _, _, s2. split; [exact E|]. split; [reflexivity|].
  split; [exact Hn|]. split; [exact E2|].
  rewrite Hlog. apply elem_of_app. right. by do 5 right; left.
Defined.

(** ** Effect on the caller's tables *)

(** C9, as the code has it.  [synthesize] never changes the caller's
    marginal tables, the household sample table, the row index of both
    joint-distribution tables and the household [cat_id] column.  When it
    returns, the [frequency] columns of the caller's two joint-distribution
    tables hold the zero-substituted values, and the [cat_id] columns of
    the caller's person joint distribution and person sample hold the ids
    with [h_jd['cat_id'].max() + 1] added: moved up by (max household
    cat_id + 1) in int64 arithmetic, or NaN when the household joint
    distribution has no row. *)
Theorem synthesize_effect_on_arguments `{Collaborators}
    (mzs jzs : Q) (start : Z) (s : synth_state) :
  let s' := (synthesize mzs jzs start s).2 in
  let k := p_starting_cat_id_of (o_h_jd s) in
  (o_h_marg s' = o_h_marg s ∧ o_p_marg s' = o_p_marg s ∧
   o_h_pums s' = o_h_pums s ∧
   jd_index (o_h_jd s') = jd_index (o_h_jd s) ∧
   jd_cat_id (o_h_jd s') = jd_cat_id (o_h_jd s) ∧
   jd_index (o_p_jd s') = jd_index (o_p_jd s)) ∧
  (∀ r, (synthesize mzs jzs start s).1 = inr r →
     jd_frequency (o_h_jd s') = replace0 jzs <$> jd_frequency (o_h_jd s) ∧
     jd_frequency (o_p_jd s') = replace0 jzs <$> jd_frequency (o_p_jd s) ∧
     jd_cat_id (o_p_jd s') = (λ c, cat_add c k) <$> jd_cat_id (o_p_jd s) ∧
     o_p_pums s' = pums_shift_cat_id k (o_p_pums s)) ∧
  (jd_cat_id (o_h_jd s) = [] → ∀ c, cat_add c k = CatNaN) ∧
  (∀ hs m,
     jd_cat_id (o_h_jd s) = CatId <$> hs →
     m ∈ hs → Forall (λ c, (c ≤ m)%Z) hs →
     ∀ c, cat_add (CatId c) k = CatId (wrap64 (c + wrap64 (m + 1)))).
Proof.
  cbv zeta. split; [apply (synthesize_frame mzs jzs start s)|]. split.
  - intros r Hr.
    destruct (synthesize mzs jzs start s) as [res s2] eqn:E.
    cbn in Hr. subst res.
    unfold synthesize in E. apply bind_inv in E as (a & s1 & E1 & E3).
    unfold synthesize_fit in E1.
    apply bind_inv in E1 as (pre & s0 & E1 & E2).
    apply synthesize_prepare_inv in E1
      as (_ & _ & _ & _ & _ & _ & Hhjd & Hpjd & Hpp).
    apply synthesize_weights_inv in E2 as (w & f & it & _ & _ & _ & Hsame).
    unfold draw, call in E3. injection E3 as _ <-. cbn.
    injection Hsame as _ _ -> -> _ ->. rewrite Hhjd, Hpjd, Hpp.
    by repeat split.
  - split.
    + intros Hnil c. unfold p_starting_cat_id_of. rewrite Hnil.
      by destruct c.
    + intros hs m Hh Hm Hle c. unfold p_starting_cat_id_of.
      by rewrite Hh, (max_cat_id_ids _ _ Hm Hle).
Qed.

Lemma synthesize_effect_on_counts :
  ∃ r s',
    synthesize (H := Demo.collaborators) 0.01 0.001 0 Inputs.counts
      = (inr r, s') ∧
    o_h_marg s' = o_h_marg Inputs.counts ∧
    jd_frequency (o_h_jd s') = [0.001%Q; 2%Q] ∧
    jd_cat_id (o_p_jd s') = [CatId 2; CatId 3].
Proof.
  destruct (synthesize_effect_on_arguments (H := Demo.collaborators)
              0.01 0.001 0 Inputs.counts) as ((Hm & _) & Hret & _).
  destruct (run_succeeded
              (synthesize (H := Demo.collaborators) 0.01 0.001 0
                 Inputs.counts)) as (r & s' & E); [vm_compute; reflexivity|].
  rewrite E in Hm, Hret. exists r, s'. split; [exact E|].
  split; [exact Hm|].
  destruct (Hret _ eq_refl) as (Hf & _ & Hc & _).
  split; [exact Hf|exact Hc].
Defined.

(** C9, as stated, fails: after [synthesize] has returned, the caller's
    joint-distribution tables and person sample differ from what was
    passed in; with a household joint distribution without rows the
    caller's person cat_ids are NaN. *)
Lemma synthesize_changes_arguments :
  (∃ r s',
     synthesize (H := Demo.collaborators) 0.01 0.001 0 Inputs.counts
       = (inr r, s') ∧
     jd_frequency (o_h_jd s') ≠ jd_frequency (o_h_jd Inputs.counts) ∧
     jd_frequency (o_p_jd s') ≠ jd_frequency (o_p_jd Inputs.counts) ∧
     jd_cat_id (o_p_jd s') ≠ jd_cat_id (o_p_jd Inputs.counts) ∧
     pums_cat_id <$> o_p_pums s' ≠ pums_cat_id <$> o_p_pums Inputs.counts) ∧
  (∃ r s',
     synthesize (H := Demo.collaborators) 0.01 0.001 0
       Inputs.no_household_rows = (inr r, s') ∧
     jd_cat_id (o_p_jd s') = [CatNaN; CatNaN] ∧
     pums_cat_id <$> o_p_pums s' = [CatNaN; CatNaN]).
Proof.
  split.
  - eexists _, _. split; [vm_compute; reflexivity|].
    repeat split; by vm_compute.
  - eexists _, _. split; [vm_compute; reflexivity|].
    split; vm_compute; reflexivity.
Qed.

(** ** Household tables and their ids *)

Lemma append_location_identifiers_union (g : geog_id) (hh : households) :
  append_location_identifiers g hh
  = (λ r, mkHh (hh_index r) (g ∪ hh_cols r)) <$> hh.
Proof.
  unfold append_location_identifiers.
  apply (map_fold_weak_ind
           (λ res m, res = (λ r, mkHh (hh_index r) (m ∪ hh_cols r)) <$> hh)).
  - rewrite <- (list_fmap_id hh) at 1. apply list_fmap_ext.
    intros _ [i c] _. cbn. by rewrite (left_id_L ∅ (∪)).
  - intros k v m res _ ->. unfold set_column. rewrite <- list_fmap_compose.
    apply list_fmap_ext. intros _ r _. cbn. by rewrite insert_union_l.
Qed.

Lemma ids_append_location_identifiers g hh :
  ids (append_location_identifiers g hh) = ids hh.
Proof.
  rewrite append_location_identifiers_union. unfold ids.
  by rewrite <- list_fmap_compose.
Qed.

Lemma ids_shift_index k hh :
  ids (shift_index k hh) = (λ x, x + k)%Z <$> ids hh.
Proof. unfold ids, shift_index. by rewrite <- !list_fmap_compose. Qed.

Lemma ids_concat_snoc (blocks : list households) (blk : households) :
  ids (concat (blocks ++ [blk])) = ids (concat blocks) ++ ids blk.
Proof.
  unfold ids. rewrite concat_app, fmap_app. cbn. by rewrite app_nil_r.
Qed.

Lemma next_index_start_ids hh start :
  next_index_start hh start = default start ((λ x, x + 1)%Z <$> last (ids hh)).
Proof.
  unfold next_index_start, ids. rewrite fmap_last. by destruct (last hh).
Qed.

Lemma one_past_max_bound (l : list Z) :
  (0 ≤ one_past_max l)%Z ∧ Forall (λ x, (x < one_past_max l)%Z) l.
Proof.
  unfold one_past_max.
  induction l as [|x l [IH0 IH]]; cbn [foldr]; [split; [lia|constructor]|].
  split; [lia|]. constructor; [lia|].
  eapply Forall_impl; [exact IH|]. cbn. lia.
Qed.

Lemma one_past_max_least (l : list Z) (m : Z) :
  (0 ≤ m)%Z → Forall (λ x, (x < m)%Z) l → (one_past_max l ≤ m)%Z.
Proof. intros Hm. unfold one_past_max. induction 1; cbn [foldr]; lia. Qed.

Lemma sorted_le_last (l : list Z) (x y : Z) :
  StronglySorted Z.lt l → last l = Some x → y ∈ l → (y ≤ x)%Z.
Proof.
  intros Hs Hlast Hy. apply last_Some in Hlast as [l' ->].
  apply elem_of_app in Hy as [Hy|Hy].
  - assert (y < x)%Z; [|lia].
    eapply (StronglySorted_app_1_elem_of _ l' [x]); [done..|left].
  - apply list_elem_of_singleton in Hy. lia.
Qed.

Lemma numbered_from_shift (k : Z) (l : list Z) :
  numbered_from 0 l → numbered_from k ((λ x, x + k)%Z <$> l).
Proof.
  intros [Hs Hh]. split.
  - eapply StronglySorted_fmap; [|exact Hs]. cbn. lia.
  - intros x. destruct l as [|y l]; [done|]. cbn. intros [= <-].
    rewrite (Hh y eq_refl). lia.
Qed.

(** Appending a block numbered from one past the largest id so far: the
    largest id is then the last id of the block. *)
Lemma one_past_max_app (l b : list Z) :
  numbered_from (one_past_max l) b →
  one_past_max (l ++ b) = default (one_past_max l) ((λ x, x + 1)%Z <$> last b).
Proof.
  intros [Hs Hh]. destruct (last b) as [x|] eqn:Hlast; cbn.
  - destruct (one_past_max_bound l) as [Hl0 Hl].
    destruct (one_past_max_bound (l ++ b)) as [_ Hlb].
    assert (Hx : x ∈ b) by by eapply last_Some_elem_of.
    assert (Hhx : (one_past_max l ≤ x)%Z).
    { destruct b as [|h b]; [done|]. rewrite <- (Hh h eq_refl).
      eapply sorted_le_last; [done..|left]. }
    apply Z.le_antisymm.
    + apply one_past_max_least; [lia|]. apply Forall_app. split.
      * eapply Forall_impl; [exact Hl|]. cbn. lia.
      * apply Forall_forall. intros y Hy.
        pose proof (sorted_le_last _ _ _ Hs Hlast Hy). lia.
    + rewrite Forall_forall in Hlb.
      assert (x < one_past_max (l ++ b))%Z; [|lia].
      apply Hlb, elem_of_app. by right.
  - apply last_None in Hlast as ->. by rewrite app_nil_r.
Qed.

Lemma stitched_nil : stitched [].
Proof. intros pre blk post E. by destruct pre. Qed.

Lemma stitched_snoc (blocks : list households) (blk : households) :
  stitched blocks →
  numbered_from (one_past_max (ids (concat blocks))) (ids blk) →
  stitched (blocks ++ [blk]).
Proof.
  intros Hst Hblk pre b post E.
  destruct post as [|z post _] using rev_ind.
  - apply app_inj_tail in E as [-> ->]. exact Hblk.
  - rewrite app_comm_cons, app_assoc in E.
    apply app_inj_tail in E as [-> _]. by eapply Hst.
Qed.

Lemma stitched_sorted (blocks : list households) :
  stitched blocks → StronglySorted Z.lt (ids (concat blocks)).
Proof.
  induction blocks as [|blk blocks IH] using rev_ind; [constructor|].
  intros Hst. rewrite ids_concat_snoc.
  destruct (Hst blocks blk [] eq_refl) as [Hs Hh].
  apply StronglySorted_app_2; [|apply IH|exact Hs].
  - intros x1 x2 H1 H2.
    destruct (one_past_max_bound (ids (concat blocks))) as [_ Hb].
    rewrite Forall_forall in Hb. specialize (Hb _ H1).
    destruct (ids blk) as [|h l] eqn:El; [by apply elem_of_nil in H2|].
    rewrite <- (Hh h eq_refl) in Hb.
    apply elem_of_cons in H2 as [->|H2]; [done|].
    apply StronglySorted_cons in Hs as [Hs _].
    rewrite Forall_forall in Hs. specialize (Hs _ H2). lia.
  - intros pre b post E. apply (Hst pre b (post ++ [blk])).
    by rewrite E, <- app_assoc.
Qed.

(** ** The loops of the drivers *)

Section DriverFacts.
Context `{Collaborators}.
Variable recipe : Recipe.
Variable num_geogs : option Z.
Variables mzs jzs : Q.

Lemma call_synthesize_drawn args start log r log' :
  call_synthesize args start log = (inr r, log') → drawn_at start r.
Proof.
  unfold call_synthesize. intros E.
  destruct (synthesize _ _ _ _) as [res s2] eqn:Es.
  cbn in E. injection E as -> _.
  unfold synthesize in Es. apply bind_inv in Es as (a & s1 & _ & Ed).
  unfold draw, call in Ed. injection Ed as Ed _.
  by eexists _, _, _, _, _, _, _.
Qed.

Lemma synthesize_task_drawn args r :
  synthesize_task args = inr r → drawn_at 0 r.
Proof.
  unfold synthesize_task, pooled.
  destruct (call_synthesize args 0 []) as [res l] eqn:E. cbn.
  intros ->. by eapply call_synthesize_drawn.
Qed.

Lemma block_group_key_log g log key log' :
  block_group_key g log = (inr key, log') → log' = log.
Proof.
  unfold block_group_key. intros E.
  repeat (apply bind_inv in E as (? & ? & E1 & E);
          unfold call in E1; injection E1 as _ <-).
  by injection E as _ <-.
Qed.

Lemma synthesize_geog_inv g a log a' log' :
  synthesize_geog recipe mzs jzs g a log = (inr a', log') →
  ∃ hh pe c p key,
    drawn_at (hh_index_start a) (hh, pe, c, p) ∧
    a' = Acc (hh_list a ++ [append_location_identifiers g hh])
             (people_list a ++ [pe]) (cnt a + 1)
             (<[key := mkFitQuality c p]> (fit_quality a))
             (next_index_start (append_location_identifiers g hh)
                (hh_index_start a)).
Proof.
  unfold synthesize_geog. intros E.
  apply bind_inv in E as (args & l1 & _ & E).
  apply bind_inv in E as ([[[hh pe] c] p] & l2 & Ec & E).
  apply bind_inv in E as (key & l3 & _ & E).
  injection E as <- _. exists hh, pe, c, p, key.
  split; [by eapply call_synthesize_drawn|done].
Qed.

Lemma reassemble_one_inv geog_ids i f a log a' log' :
  reassemble_one geog_ids i f a log = (inr a', log') →
  (∃ e, f = inl e ∧ a' = a ∧ log' = log ++ [PrintException e]) ∨
  (∃ g hh pe c p key,
     f = inr (hh, pe, c, p) ∧ geog_ids !! i = Some g ∧ log' = log ∧
     block_group_key g log = (inr key, log) ∧
     a' = Acc (hh_list a ++
                 [shift_index (hh_index_start a)
                    (append_location_identifiers g hh)])
              (people_list a ++ [shift_hh_id (hh_index_start a) pe])
              (cnt a)
              (<[key := mkFitQuality c p]> (fit_quality a))
              (next_index_start
                 (shift_index (hh_index_start a)
                    (append_location_identifiers g hh))
                 (hh_index_start a))).
Proof.
  destruct f as [e|[[[hh pe] c] p]]; cbn [reassemble_one]; intros E.
  - left. exists e. apply bind_inv in E as ([] & l1 & E1 & E).
    injection E1 as <-. by injection E as <- <-.
  - right. apply bind_inv in E as (g & l1 & E1 & E).
    unfold call in E1. injection E1 as E1 <-.
    destruct (geog_ids !! i) as [g'|]; [injection E1 as ->|done].
    apply bind_inv in E as (key & l2 & Ek & E).
    pose proof (block_group_key_log _ _ _ _ Ek) as ->.
    injection E as <- <-. by exists g, hh, pe, c, p, key.
Qed.

(** Invariants of the two loops. *)
Lemma synthesize_loop_inv (P : acc → Prop) (Q : geog_id → Prop) :
  (∀ g a log a' log',
     Q g → P a →
     synthesize_geog recipe mzs jzs g a log = (inr a', log') → P a') →
  ∀ indexes a log a' log',
    Forall Q indexes → P a →
    synthesize_loop recipe num_geogs mzs jzs indexes a log = (inr a', log') →
    P a'.
Proof.
  intros Hstep. induction indexes as [|g rest IH];
    intros a log a' log' HQ HP E; cbn in E.
  - by injection E as <- _.
  - apply Forall_cons_1 in HQ as [Hg HQ].
    apply bind_inv in E as (a1 & l1 & E1 & E).
    assert (P a1) by eauto.
    destruct (reached num_geogs (cnt a1)); [by injection E as <- _|eauto].
Qed.

Lemma reassemble_inv (P : acc → Prop) (F : exn + _ → Prop) geog_ids :
  (∀ i f a log a' log',
     F f → P a → reassemble_one geog_ids i f a log = (inr a', log') → P a') →
  ∀ futures i a log a' log',
    Forall F futures → P a →
    reassemble geog_ids i futures a log = (inr a', log') → P a'.
Proof.
  intros Hstep. induction futures as [|f rest IH];
    intros i a log a' log' HF HP E; cbn in E.
  - by injection E as <- _.
  - apply Forall_cons_1 in HF as [Hf HF].
    apply bind_inv in E as (a1 & l1 & E1 & E). eauto.
Qed.

Lemma synthesize_tasks_drawn (finished : list synth_args) :
  Forall (λ f, ∀ r, f = inr r → drawn_at 0 r) (synthesize_task <$> finished).
Proof.
  apply Forall_fmap, Forall_forall. intros args _ r.
  apply synthesize_task_drawn.
Qed.

Lemma default_indexes_inv indexes log idx log' :
  default_indexes recipe indexes log = (inr idx, log') →
  idx = resolved recipe indexes ∧ log' = log.
Proof.
  unfold default_indexes, resolved.
  destruct indexes as [l|]; [by intros [= <- <-]|].
  unfold call. by intros [= -> <-].
Qed.

Lemma concat_results_inv a log hh pe fq log' :
  concat_results a log = (inr (hh, pe, fq), log') →
  hh = concat (hh_list a) ∧ pe = concat (people_list a) ∧
  fq = fit_quality a ∧ log' = log.
Proof.
  unfold concat_results, pd_concat. intros E.
  apply bind_inv in E as (x & l1 & E1 & E).
  apply bind_inv in E as (y & l2 & E2 & E).
  unfold call in E1, E2. injection E as <- <- <- <-.
  destruct (hh_list a); [done|]. destruct (people_list a); [done|].
  by simplify_eq.
Qed.

Lemma synthesize_all_inv indexes log hh pe fq log' :
  synthesize_all recipe num_geogs mzs jzs indexes log
    = (inr (hh, pe, fq), log') →
  ∃ a log1,
    synthesize_loop recipe num_geogs mzs jzs (resolved recipe indexes) acc0
      log1 = (inr a, log') ∧
    hh = concat (hh_list a) ∧ pe = concat (people_list a) ∧
    fq = fit_quality a.
Proof.
  unfold synthesize_all. intros E.
  apply bind_inv in E as (idx & l1 & Ei & E).
  apply default_indexes_inv in Ei as [-> ->].
  apply bind_inv in E as (n & l2 & _ & E).
  apply bind_inv in E as (a & l3 & El & E).
  apply concat_results_inv in E as (-> & -> & -> & ->).
  by exists a, l2.
Qed.

Lemma mapM_call_inv {A} (fs : list (exn + A)) (log : list event) xs log' :
  mapM call fs log = (inr xs, log') → fs = inr <$> xs ∧ log' = log.
Proof.
  revert xs log'. induction fs as [|f fs IH]; intros xs log'; cbn.
  - by intros [= <- <-].
  - intros E. apply bind_inv in E as (x & l1 & E1 & E).
    unfold call in E1. injection E1 as -> <-.
    apply bind_inv in E as (ys & l2 & E2 & E).
    apply IH in E2 as [-> ->]. by injection E as <- <-.
Qed.

Lemma submitted_elem_of indexes c g :
  g ∈ submitted num_geogs indexes c → g ∈ indexes.
Proof.
  revert c. induction indexes as [|g' rest IH]; intros c; cbn; [done|].
  intros [->|Hg]%elem_of_cons; [left|right].
  destruct (reached _ _); [by apply elem_of_nil in Hg|eauto].
Qed.

Lemma synthesize_all_in_parallel_inv indexes sched1 sched2 log hh pe fq log' :
  synthesize_all_in_parallel recipe num_geogs mzs jzs indexes sched1 sched2
    log
    = (inr (hh, pe, fq), log') →
  ∃ finished a log1 log2,
    let geog_ids := submitted num_geogs (resolved recipe indexes) 0 in
    submit_and_collect recipe num_geogs mzs jzs indexes sched1 log
      = (inr (geog_ids, finished), log1) ∧
    reassemble geog_ids 0 (synthesize_task <$> finished)
      (Acc [] [] (Z.of_nat (length geog_ids)) ∅ 0) log2 = (inr a, log') ∧
    hh = concat (hh_list a) ∧ pe = concat (people_list a) ∧
    fq = fit_quality a.
Proof.
  unfold synthesize_all_in_parallel. intros E.
  apply bind_inv in E as ([gids finished] & l1 & Es & E).
  assert (gids = submitted num_geogs (resolved recipe indexes) 0) as ->.
  { unfold submit_and_collect in Es.
    apply bind_inv in Es as (idx & l2 & Ei & Es).
    apply default_indexes_inv in Ei as [-> ->].
    apply bind_inv in Es as (? & ? & _ & Es).
    apply bind_inv in Es as (? & ? & _ & Es).
    apply bind_inv in Es as (? & ? & _ & Es).
    by injection Es as <- _ _. }
  apply bind_inv in E as ([] & l2 & _ & E).
  apply bind_inv in E as ([] & l3 & _ & E).
  unfold process_results in E.
  apply bind_inv in E as ([] & l4 & _ & E).
  apply bind_inv in E as (a & l5 & Er & E).
  apply concat_results_inv in E as (-> & -> & -> & ->).
  by exists finished, a, l1, l4.
Qed.

End DriverFacts.

(** ** The drawer of the small instance *)

Lemma seq_strongly_sorted (a n : nat) : StronglySorted lt (seq a n).
Proof.
  revert a. induction n as [|n IH]; intros a; cbn; constructor; [apply IH|].
  apply Forall_forall. intros x Hx%elem_of_seq. lia.
Qed.

Lemma demo_draw_ids num hp pp start hh pe c p :
  Demo.draw num hp pp start = inr (hh, pe, c, p) →
  ids hh = (λ i, start + Z.of_nat i)%Z <$> seq 0 (Z.to_nat num).
Proof.
  unfold Demo.draw. destruct hp as [|s0 hp']; [done|]. intros [= <- _ _ _].
  unfold ids. by rewrite <- !list_fmap_compose.
Qed.

Lemma demo_numbers_from_start :
  drawer_numbers_from_start (H := Demo.collaborators).
Proof.
  intros start hh pe c p (num & hp & pp & [] & hc & pc & [] & E). cbn in E.
  rewrite (demo_draw_ids _ _ _ _ _ _ _ _ E). split.
  - eapply StronglySorted_fmap; [|apply seq_strongly_sorted]. cbn. lia.
  - destruct (Z.to_nat num); [done|]. cbn. intros x [= <-]. lia.
Qed.

Lemma demo_links_people : drawer_links_people (H := Demo.collaborators).
Proof.
  intros start hh pe c p (num & hp & pp & [] & hc & pc & [] & E). cbn in E.
  unfold Demo.draw in E. destruct hp as [|s0 hp']; [done|].
  injection E as <- <- _ _. apply Forall_concat, Forall_fmap, Forall_fmap.
  apply Forall_forall. intros i Hi. cbn. apply Forall_fmap, Forall_forall.
  intros q _. cbn. unfold ids. rewrite <- !list_fmap_compose.
  by apply (list_elem_of_fmap_2 (λ i, start + Z.of_nat i)%Z).
Qed.

(** ** Steps of the invariants *)

Lemma stitching_step (a : acc) (blk : households) pl c fq :
  stitching_invariant a →
  numbered_from (hh_index_start a) (ids blk) →
  stitching_invariant
    (Acc (hh_list a ++ [blk]) pl c fq
         (next_index_start blk (hh_index_start a))).
Proof.
  intros [Hst Hstart] Hblk. rewrite Hstart in Hblk. split; cbn.
  - by apply stitched_snoc.
  - rewrite ids_concat_snoc, next_index_start_ids, one_past_max_app by done.
    by rewrite Hstart.
Qed.

Lemma linked_step (a : acc) (blk : households) (pe : people) c fq start :
  linked a → Forall (λ r, hh_id r ∈ ids blk) pe →
  linked (Acc (hh_list a ++ [blk]) (people_list a ++ [pe]) c fq start).
Proof.
  unfold linked. cbn. intros Ha Hpe.
  rewrite ids_concat_snoc, concat_app. cbn. rewrite app_nil_r.
  apply Forall_app. split; (eapply Forall_impl; [eassumption|]); cbn;
    intros r Hr; apply elem_of_app; auto.
Qed.

Lemma linked_shift (k : Z) (hh : households) (pe : people) :
  Forall (λ r, hh_id r ∈ ids hh) pe →
  Forall (λ r, hh_id r ∈ ids (shift_index k hh)) (shift_hh_id k pe).
Proof.
  intros Hpe. apply Forall_fmap. eapply Forall_impl; [exact Hpe|]. cbn.
  intros r Hr. rewrite ids_shift_index.
  by apply (list_elem_of_fmap_2 (λ x, x + k)%Z).
Qed.

Lemma located_append (idx : list geog_id) (g : geog_id) (hh : households) :
  g ∈ idx → Forall (located idx) (append_location_identifiers g hh).
Proof.
  intros Hg. rewrite append_location_identifiers_union.
  apply Forall_fmap, Forall_forall. intros r _. exists g.
  split; [done|]. cbn. apply map_union_subseteq_l.
Qed.

Lemma located_shift (idx : list geog_id) (k : Z) (hh : households) :
  Forall (located idx) hh → Forall (located idx) (shift_index k hh).
Proof. intros Hh. apply Forall_fmap. by eapply Forall_impl. Qed.

Lemma shift_hh_id_0 (pe : people) : shift_hh_id 0 pe = pe.
Proof.
  unfold shift_hh_id. rewrite <- (list_fmap_id pe) at 2.
  apply list_fmap_ext. intros _ [i c] _. cbn. f_equal. lia.
Qed.

Section Stitching.
Context `{Collaborators}.
Variable recipe : Recipe.
Variable num_geogs : option Z.
Variables mzs jzs : Q.

(** C3.  With a drawer that numbers its households upward from
    [hh_index_start], the household ids of the table either driver
    returns are strictly increasing, and the table of every geography
    ([hh_list] holds them in the order they were stitched) starts one
    past the largest id of the tables stitched before it, 0 for the
    first. *)
Theorem household_ids_strictly_increase :
  drawer_numbers_from_start →
  (∀ indexes log hh pe fq log',
     synthesize_all recipe num_geogs mzs jzs indexes log
       = (inr (hh, pe, fq), log') →
     StronglySorted Z.lt (ids hh) ∧
     ∃ a log1,
       synthesize_loop recipe num_geogs mzs jzs (resolved recipe indexes)
         acc0 log1 = (inr a, log') ∧
       hh = concat (hh_list a) ∧ stitched (hh_list a)) ∧
  (∀ indexes sched1 sched2 log hh pe fq log',
     synthesize_all_in_parallel recipe num_geogs mzs jzs indexes
       sched1 sched2 log = (inr (hh, pe, fq), log') →
     StronglySorted Z.lt (ids hh) ∧
     ∃ geog_ids futures a0 a log1,
       reassemble geog_ids 0 futures a0 log1 = (inr a, log') ∧
       (hh_list a0 = [] ∧ hh_index_start a0 = 0%Z) ∧
       hh = concat (hh_list a) ∧ stitched (hh_list a)).
Proof.
  intros Hdraw. split.
  - intros indexes log hh pe fq log' E.
    apply synthesize_all_inv in E as (a & log1 & El & -> & _).
    assert (stitching_invariant a) as [Hst _].
    { eapply (synthesize_loop_inv _ _ _ _ stitching_invariant (λ _, True));
        [|by apply Forall_true| |exact El].
      - intros g a1 l a2 l' _ Ha Eg.
        apply synthesize_geog_inv in Eg as (h & q & c & p & key & Hd & ->).
        apply stitching_step; [done|].
        rewrite ids_append_location_identifiers. by eapply Hdraw.
      - split; [apply stitched_nil|done]. }
    split; [by apply stitched_sorted|]. by exists a, log1.
  - intros indexes sched1 sched2 log hh pe fq log' E.
    apply synthesize_all_in_parallel_inv in E
      as (finished & a & log1 & log2 & _ & Er & -> & _).
    assert (stitching_invariant a) as [Hst _].
    { eapply (reassemble_inv stitching_invariant);
        [|apply synthesize_tasks_drawn| |exact Er].
      - intros i f a1 l a2 l' Hf Ha Ef.
        apply reassemble_one_inv in Ef
          as [(e & _ & -> & _)|(g & h & q & c & p & key & -> & _ & _ & _ & ->)];
          [done|].
        apply stitching_step; [done|].
        rewrite ids_shift_index, ids_append_location_identifiers.
        apply numbered_from_shift. by eapply Hdraw, Hf.
      - split; [apply stitched_nil|done]. }
    split; [by apply stitched_sorted|]. by eexists _, _, _, a, log2.
Qed.

(** C10.  With a drawer whose person rows point at household rows of the
    same draw, every [hh_id] of the person table either driver returns is
    the id of a row of the household table it returns with it. *)
Theorem people_reference_households :
  drawer_links_people →
  (∀ indexes log hh pe fq log',
     synthesize_all recipe num_geogs mzs jzs indexes log
       = (inr (hh, pe, fq), log') →
     Forall (λ r, hh_id r ∈ ids hh) pe) ∧
  (∀ indexes sched1 sched2 log hh pe fq log',
     synthesize_all_in_parallel recipe num_geogs mzs jzs indexes
       sched1 sched2 log = (inr (hh, pe, fq), log') →
     Forall (λ r, hh_id r ∈ ids hh) pe).
Proof.
  intros Hdraw. split.
  - intros indexes log hh pe fq log' E.
    apply synthesize_all_inv in E as (a & log1 & El & -> & -> & _).
    eapply (synthesize_loop_inv _ _ _ _ linked (λ _, True));
      [|by apply Forall_true| |exact El]; [|constructor].
    intros g a1 l a2 l' _ Ha Eg.
    apply synthesize_geog_inv in Eg as (h & q & c & p & key & Hd & ->).
    apply linked_step; [done|].
    rewrite ids_append_location_identifiers. by eapply Hdraw.
  - intros indexes sched1 sched2 log hh pe fq log' E.
    apply synthesize_all_in_parallel_inv in E
      as (finished & a & log1 & log2 & _ & Er & -> & -> & _).
    eapply (reassemble_inv linked);
      [|apply synthesize_tasks_drawn| |exact Er]; [|constructor].
    intros i f a1 l a2 l' Hf Ha Ef.
    apply reassemble_one_inv in Ef
      as [(e & _ & -> & _)|(g & h & q & c & p & key & -> & _ & _ & _ & ->)];
      [done|].
    apply linked_step; [done|]. apply linked_shift.
    rewrite ids_append_location_identifiers. by eapply Hdraw, Hf.
Qed.

End Stitching.

(** ** The drivers on the small instance *)

Lemma household_ids_on_recipe :
  drawer_numbers_from_start (H := Demo.collaborators) ∧
  (∃ hh pe fq log',
     Demo.sequential_run None = (inr (hh, pe, fq), log') ∧
     StronglySorted Z.lt (ids hh)) ∧
  (∃ hh pe fq log',
     Demo.parallel_run (Some (Demo.geog <$> [1; 0; 2]%Z)) [1]
       = (inr (hh, pe, fq), log') ∧
     StronglySorted Z.lt (ids hh)).
Proof.
  split; [exact demo_numbers_from_start|].
  destruct (household_ids_strictly_increase (H := Demo.collaborators)
              Demo.recipe None 0.01 0.001 demo_numbers_from_start)
    as [Hseq Hpar].
  split.
  - destruct (run_succeeded (Demo.sequential_run None))
      as ([[hh pe] fq] & log' & E); [vm_compute; reflexivity|].
    exists hh, pe, fq, log'. split; [exact E|].
    exact (proj1 (Hseq None [] hh pe fq log' E)).
  - destruct (run_succeeded
                (Demo.parallel_run (Some (Demo.geog <$> [1; 0; 2]%Z)) [1]))
      as ([[hh pe] fq] & log' & E); [vm_compute; reflexivity|].
    exists hh, pe, fq, log'. split; [exact E|].
    exact (proj1 (Hpar _ [1] [] [] hh pe fq log' E)).
Defined.

Lemma people_reference_households_on_recipe :
  drawer_links_people (H := Demo.collaborators) ∧
  (∃ hh pe fq log',
     Demo.sequential_run None = (inr (hh, pe, fq), log') ∧
     Forall (λ r, hh_id r ∈ ids hh) pe) ∧
  (∃ hh pe fq log',
     Demo.parallel_run (Some (Demo.geog <$> [1; 0; 2]%Z)) [1]
       = (inr (hh, pe, fq), log') ∧
     Forall (λ r, hh_id r ∈ ids hh) pe).
Proof.
  split; [exact demo_links_people|].
  destruct (people_reference_households (H := Demo.collaborators)
              Demo.recipe None 0.01 0.001 demo_links_people)
    as [Hseq Hpar].
  split.
  - destruct (run_succeeded (Demo.sequential_run None))
      as ([[hh pe] fq] & log' & E); [vm_compute; reflexivity|].
    exists hh, pe, fq, log'. split; [exact E|].
    exact (Hseq None [] hh pe fq log' E).
  - destruct (run_succeeded
                (Demo.parallel_run (Some (Demo.geog <$> [1; 0; 2]%Z)) [1]))
      as ([[hh pe] fq] & log' & E); [vm_compute; reflexivity|].
    exists hh, pe, fq, log'. split; [exact E|].
    exact (Hpar _ [1] [] [] hh pe fq log' E).
Defined.

(** ** Completion order *)

(** Whatever the pool decides, [as_completed] yields every future once. *)
Lemma as_completed_n_Permutation {A} (n : nat) (sched : list nat) (fs : list A) :
  length fs = n → as_completed_n n sched fs ≡ₚ fs.
Proof.
  revert sched fs. induction n as [|n IH]; intros sched fs Hlen; cbn.
  - by apply nil_length_inv in Hlen as ->.
  - assert (Hk : hd 0 sched `mod` length fs < length fs).
    { apply Nat.mod_upper_bound. lia. }
    destruct (lookup_lt_is_Some_2 _ _ Hk) as [f Hf]. rewrite Hf.
    etransitivity; [|symmetry; exact (delete_Permutation fs _ f Hf)].
    constructor. apply IH. rewrite length_delete by eauto. lia.
Qed.

Lemma as_completed_Permutation {A} (sched : list nat) (fs : list A) :
  as_completed sched fs ≡ₚ fs.
Proof. by apply as_completed_n_Permutation. Qed.

(** When the futures finish in the order of submission. *)
Lemma as_completed_in_order {A} (fs : list A) : as_completed [] fs = fs.
Proof.
  unfold as_completed. induction fs as [|f fs IH]; [done|].
  cbn [length as_completed_n hd tl]. rewrite Nat.Div0.mod_0_l. cbn.
  by rewrite IH.
Qed.

(** ** Failures met during reassembly *)

Section Reassembly.
Context `{Collaborators}.

Lemma reassemble_one_lookup geog_ids i g f a :
  geog_ids !! i = Some g →
  reassemble_one geog_ids i f a = reassemble_one [g] 0 f a.
Proof.
  intros Hg. destruct f as [e|[[[hh pe] c] p]]; [done|].
  cbn [reassemble_one]. by rewrite Hg.
Qed.

Lemma reassemble_zip geog_ids i futures a log :
  i + length futures ≤ length geog_ids →
  reassemble geog_ids i futures a log
  = reassemble_slots (zip (drop i geog_ids) futures) a log.
Proof.
  revert i a log. induction futures as [|f fs IH]; intros i a log Hlen.
  { by destruct (drop i geog_ids). }
  cbn [length] in Hlen.
  destruct (lookup_lt_is_Some_2 geog_ids i) as [g Hg]; [lia|].
  rewrite (drop_S _ _ _ Hg). cbn [zip zip_with reassemble reassemble_slots].
  rewrite !bind_run, (reassemble_one_lookup _ _ _ _ _ Hg).
  destruct (reassemble_one [g] 0 f a log) as [[e|a'] l]; [done|].
  apply IH. lia.
Qed.
End Reassembly.

Section Isolation.
Context `{Collaborators}.

Lemma block_group_key_pure (g : geog_id) :
  ∃ r, ∀ log, block_group_key g log = (r, log).
Proof.
  cbv [block_group_key mbind M_bind mret M_ret call getitem].
  destruct (g !! "state"); [|by eexists].
  destruct (g !! "county"); [|by eexists].
  destruct (g !! "tract"); [|by eexists].
  destruct (g !! "block group"); by eexists.
Qed.

Lemma block_group_key_has_keys (g : geog_id) :
  has_keys g → ∃ key, ∀ log, block_group_key g log = (inr key, log).
Proof.
  intros ([s Hs] & [c Hc] & [t Ht] & [b Hb]).
  cbv [block_group_key mbind M_bind mret M_ret call getitem].
  rewrite Hs, Hc, Ht, Hb. by eexists.
Qed.

(** One round of the loop on a slot whose future holds a result. *)
Lemma reassemble_one_result g hh pe c p a log :
  reassemble_one [g] 0 (inr (hh, pe, c, p)) a log
  = match (block_group_key g log).1 with
    | inl e => (inl e, log)
    | inr key =>
        (inr (Acc (hh_list a ++
                     [shift_index (hh_index_start a)
                        (append_location_identifiers g hh)])
                  (people_list a ++ [shift_hh_id (hh_index_start a) pe])
                  (cnt a)
                  (<[key := mkFitQuality c p]> (fit_quality a))
                  (next_index_start
                     (shift_index (hh_index_start a)
                        (append_location_identifiers g hh))
                     (hh_index_start a))), log)
    end.
Proof.
  destruct (block_group_key_pure g) as [r Hr].
  cbn [reassemble_one]. rewrite !bind_run. cbn. rewrite !bind_run, Hr.
  by destruct r.
Qed.

Lemma reassemble_one_agree g f a b log log' :
  same_tables a b →
  agree (reassemble_one [g] 0 f a log).1 (reassemble_one [g] 0 f b log').1.
Proof.
  intros (H1 & H2 & H3 & H4). destruct f as [e|[[[hh pe] c] p]].
  - by cbn.
  - rewrite !reassemble_one_result.
    destruct (block_group_key_pure g) as [r Hr]. rewrite !Hr. cbn.
    destruct r as [e|key]; cbn; [done|].
    rewrite H1, H2, H3, H4. by repeat split.
Qed.

(** Slots whose future holds an exception leave the tables as they are:
    the loop over all slots and the loop over the surviving ones agree. *)
Lemma reassemble_slots_filter slots a b log log' :
  same_tables a b →
  agree (reassemble_slots slots a log).1
        (reassemble_slots (filter (λ s, succeeded s.2) slots) b log').1.
Proof.
  revert a b log log'.
  induction slots as [|[g f] slots IH]; intros a b log log' Hab; [done|].
  destruct f as [e|r].
  - rewrite filter_cons_False by (cbn; tauto).
    cbn [reassemble_slots]. rewrite bind_run. cbn. by apply IH.
  - rewrite filter_cons_True by done.
    cbn [reassemble_slots]. rewrite !bind_run.
    pose proof (reassemble_one_agree g (inr r) a b log log' Hab) as Hag.
    destruct (reassemble_one [g] 0 (inr r) a log) as [[e1|a1] l1],
             (reassemble_one [g] 0 (inr r) b log') as [[e2|b1] l2];
      cbn in Hag; try done.
    by apply IH.
Qed.

Lemma reassemble_slots_unzip slots a log :
  reassemble_slots slots a log = reassemble slots.*1 0 slots.*2 a log.
Proof.
  rewrite reassemble_zip by (rewrite !length_fmap; lia).
  by rewrite drop_0, zip_fst_snd.
Qed.

(** What the loop prints: one line per failed future, holding the
    exception. *)
Lemma reassemble_log geog_ids i futures a log a' log' :
  reassemble geog_ids i futures a log = (inr a', log') →
  log' = log ++ (PrintException <$> errors futures).
Proof.
  revert i a log. induction futures as [|f fs IH]; intros i a log E.
  - injection E as _ <-. by rewrite app_nil_r.
  - cbn [reassemble] in E. apply bind_inv in E as (a1 & l1 & E1 & E).
    apply IH in E as ->.
    apply reassemble_one_inv in E1
      as [(e & -> & _ & ->)|(g & h & q & c & p & k & -> & _ & -> & _)].
    + cbn. by rewrite <- app_assoc.
    + done.
Qed.

(** When every slot holds a result and every geography id has its key
    fields, the loop adds one table per slot. *)
Lemma reassemble_slots_all_ok slots a log :
  Forall (λ s, succeeded s.2 ∧ has_keys s.1) slots →
  ∃ a', reassemble_slots slots a log = (inr a', log) ∧
        length (hh_list a') = length (hh_list a) + length slots ∧
        length (people_list a') = length (people_list a) + length slots.
Proof.
  revert a. induction slots as [|[g f] slots IH]; intros a Hall.
  { exists a. cbn. by rewrite !Nat.add_0_r. }
  apply Forall_cons_1 in Hall as [[Hf Hg] Hall]. cbn in Hf, Hg.
  destruct f as [e|[[[hh pe] c] p]]; [done|].
  destruct (block_group_key_has_keys g Hg) as [key Hkey].
  cbn [reassemble_slots]. rewrite bind_run, reassemble_one_result, Hkey.
  cbn. edestruct IH as (a' & -> & Hh & Hp); [exact Hall|].
  exists a'. split; [done|]. rewrite Hh, Hp. cbn.
  rewrite !length_app. cbn. lia.
Qed.

Lemma concat_results_tables (a b : acc) log log' :
  same_tables a b → (concat_results a log).1 = (concat_results b log').1.
Proof.
  intros (H1 & H2 & H3 & _). unfold concat_results.
  rewrite !bind_run, H1, H2, H3. unfold call.
  destruct (pd_concat (hh_list b)); [done|]. rewrite !bind_run.
  by destruct (pd_concat (people_list b)).
Qed.

Lemma process_results_surviving geog_ids futures log log' :
  length futures ≤ length geog_ids →
  (process_results geog_ids futures log).1
  = (process_results (surviving geog_ids futures).*1
       (surviving geog_ids futures).*2 log').1.
Proof.
  intros Hlen. unfold process_results. rewrite !bind_run. cbn.
  rewrite !bind_run. rewrite reassemble_zip by (cbn; lia).
  rewrite <- reassemble_slots_unzip, drop_0.
  match goal with
  | |- (match reassemble_slots ?sl ?a ?l with _ => _ end).1
       = (match reassemble_slots _ ?b ?l' with _ => _ end).1 =>
      pose proof (reassemble_slots_filter sl a b l l') as Hag
  end.
  unfold surviving.
  destruct (reassemble_slots (zip _ _) _ _) as [[e1|a1] l1],
           (reassemble_slots (filter _ _) _ _) as [[e2|b1] l2];
    cbn in Hag.
  - by rewrite Hag.
  - by destruct Hag.
  - by destruct Hag.
  - apply concat_results_tables, Hag. by repeat split.
Qed.
End Isolation.

Section FailureIsolation.
Context `{Collaborators}.
Variable recipe : Recipe.
Variable num_geogs : option Z.
Variables mzs jzs : Q.

Lemma submit_and_collect_length indexes sched1 log geog_ids finished log1 :
  submit_and_collect recipe num_geogs mzs jzs indexes sched1 log
    = (inr (geog_ids, finished), log1) →
  length finished = length geog_ids.
Proof.
  unfold submit_and_collect. intros E.
  apply bind_inv in E as (idx & l1 & _ & E).
  apply bind_inv in E as ([] & l2 & _ & E).
  apply bind_inv in E as ([] & l3 & _ & E).
  apply bind_inv in E as (fin & l4 & Em & E).
  injection E as <- <- _. apply mapM_call_inv in Em as [Em _].
  apply (f_equal length) in Em.
  rewrite (Permutation_length (as_completed_Permutation _ _)) in Em.
  by rewrite !length_fmap in Em.
Qed.

(** The argument tuples are collected in the order in which the fetch
    tasks finish, the geography ids in the order of submission. *)
Lemma finished_args_in_completion_order
    indexes sched1 log geog_ids finished log1 :
  submit_and_collect recipe num_geogs mzs jzs indexes sched1 log
    = (inr (geog_ids, finished), log1) →
  geog_ids = submitted num_geogs (resolved recipe indexes) 0 ∧
  inr <$> finished
  = as_completed sched1
      ((λ g, pooled (geog_preprocessing recipe mzs jzs g)) <$> geog_ids).
Proof.
  unfold submit_and_collect. intros E.
  apply bind_inv in E as (idx & l1 & Ei & E).
  apply default_indexes_inv in Ei as [-> ->].
  apply bind_inv in E as ([] & l2 & _ & E).
  apply bind_inv in E as ([] & l3 & _ & E).
  apply bind_inv in E as (fin & l4 & Em & E).
  injection E as <- <- _. apply mapM_call_inv in Em as [Em _]. by split.
Qed.

(** When the fetch tasks finish in the order of submission, the i-th
    argument tuple is the one fetched for the i-th geography id. *)
Lemma finished_args_in_submission_order indexes log geog_ids finished log1 :
  submit_and_collect recipe num_geogs mzs jzs indexes [] log
    = (inr (geog_ids, finished), log1) →
  inr <$> finished
  = (λ g, pooled (geog_preprocessing recipe mzs jzs g)) <$> geog_ids.
Proof.
  intros E.
  destruct (finished_args_in_completion_order _ _ _ _ _ _ E) as [_ ->].
  apply as_completed_in_order.
Qed.

Lemma parallel_after_collect indexes sched1 sched2 log geog_ids finished log1 :
  submit_and_collect recipe num_geogs mzs jzs indexes sched1 log
    = (inr (geog_ids, finished), log1) →
  synthesize_all_in_parallel recipe num_geogs mzs jzs indexes sched1 sched2
    log
  = process_results geog_ids (synthesize_task <$> finished)
      (log1 ++ [PrintSubmitting (length finished)] ++
         [Print "Beginning population synthesis in parallel:"]).
Proof.
  intros E. unfold synthesize_all_in_parallel.
  rewrite (bind_inr _ _ _ _ _ E), bind_run. cbn. rewrite bind_run. cbn.
  by rewrite <- app_assoc.
Qed.

(** C2, as the code has it.  Once every fetch task has delivered its
    inputs, an exception raised by a synthesis task is caught in the
    reassembly loop: the tables and the FitQuality map the driver
    returns are those of the reassembly of the slots whose task
    succeeded alone; the driver does return them when at least one slot
    succeeded and the geography ids of those slots have their key
    fields; and what it prints for the failed slots is one line each
    with the exception, in slot order. *)
Theorem failed_synthesis_is_skipped
    indexes sched1 sched2 log geog_ids finished log1 :
  submit_and_collect recipe num_geogs mzs jzs indexes sched1 log
    = (inr (geog_ids, finished), log1) →
  let futures := synthesize_task <$> finished in
  let ok := surviving geog_ids futures in
  let run := synthesize_all_in_parallel recipe num_geogs mzs jzs indexes
               sched1 sched2 log in
  run.1 = (process_results ok.*1 ok.*2 []).1 ∧
  (ok ≠ [] → Forall has_keys ok.*1 → succeeded run.1 = true) ∧
  (succeeded run.1 = true →
   run.2 = log1 ++
           [PrintSubmitting (length finished);
            Print "Beginning population synthesis in parallel:";
            Print "Processing results:"] ++
           (PrintException <$> errors futures)).
Proof.
  intros E futures ok run.
  pose proof (submit_and_collect_length _ _ _ _ _ _ E) as Hlen.
  assert (Hrun : run.1 = (process_results ok.*1 ok.*2 []).1).
  { subst run. rewrite (parallel_after_collect _ _ sched2 _ _ _ _ E).
    apply process_results_surviving. subst futures.
    rewrite length_fmap. lia. }
  split; [exact Hrun|]. split.
  - intros Hne Hkeys. rewrite Hrun. unfold process_results.
    rewrite !bind_run. cbn. rewrite bind_run, <- reassemble_slots_unzip.
    edestruct (reassemble_slots_all_ok ok) as (a' & -> & Hh & Hp).
    { apply Forall_forall. intros s Hs. split.
      - subst ok. unfold surviving in Hs.
        by apply list_elem_of_filter in Hs as [Hs _].
      - rewrite Forall_forall in Hkeys.
        by apply Hkeys, list_elem_of_fmap_2. }
    cbn in Hh, Hp. unfold concat_results, pd_concat. rewrite !bind_run.
    destruct (hh_list a'); [destruct ok; [done|cbn in Hh; lia]|].
    destruct (people_list a'); [destruct ok; [done|cbn in Hp; lia]|].
    done.
  - subst run. rewrite (parallel_after_collect _ _ sched2 _ _ _ _ E).
    intros Hok. apply run_succeeded in Hok as ([[hh pe] fq] & l & Ep).
    rewrite Ep. cbn. unfold process_results in Ep.
    apply bind_inv in Ep as ([] & l1 & E1 & Ep). injection E1 as <-.
    apply bind_inv in Ep as (a & l2 & Er & Ep).
    apply concat_results_inv in Ep as (_ & _ & _ & ->).
    apply reassemble_log in Er as ->. by rewrite <- !app_assoc.
Qed.

End FailureIsolation.

Lemma failed_synthesis_on_recipe :
  ∃ geog_ids finished log1,
    submit_and_collect Demo.recipe None 0.01 0.001
      (Some (Demo.geog <$> [1; 0; 2]%Z)) [] []
      = (inr (geog_ids, finished), log1) ∧
    (Demo.parallel_run (Some (Demo.geog <$> [1; 0; 2]%Z)) []).1
    = (process_results
         (surviving geog_ids
            (synthesize_task (H := Demo.collaborators) <$> finished)).*1
         (surviving geog_ids
            (synthesize_task (H := Demo.collaborators) <$> finished)).*2
         []).1 ∧
    Demo.view (Demo.parallel_run (Some (Demo.geog <$> [1; 0; 2]%Z)) [])
    = inr ([Demo.household 0 1 1; Demo.household 1 2 2; Demo.household 2 2 2],
           [Demo.person 0 1; Demo.person 1 2; Demo.person 2 2],
           [(Demo.key 1, mkFitQuality 1 1); (Demo.key 2, mkFitQuality 2 1)]).
Proof.
  destruct (run_succeeded
              (submit_and_collect Demo.recipe None 0.01 0.001
                 (Some (Demo.geog <$> [1; 0; 2]%Z)) [] []))
    as ([geog_ids finished] & log1 & E); [vm_compute; reflexivity|].
  exists geog_ids, finished, log1. split; [exact E|]. split.
  - exact (proj1 (failed_synthesis_is_skipped (H := Demo.collaborators)
                    Demo.recipe None 0.01 0.001 _ [] [] [] _ _ _ E)).
  - vm_compute. reflexivity.
Defined.

(** C2, as stated, fails twice.  The fetch of the third of five
    geographies raises: the driver raises that exception and returns no
    table.  And the lines printed when a synthesis task fails are the same
    whether the first or the second geography was the one that failed:
    they hold the exception and nothing of the geography. *)
Lemma fetch_failure_aborts_the_batch :
  Demo.view (Demo.parallel_run (Some (Demo.geog <$> [1; 2; 13; 3; 4]%Z)) [])
    = inl (Exception "IOError" "no marginal") ∧
  (Demo.parallel_run (Some (Demo.geog <$> [0; 1; 2]%Z)) []).2
    = (Demo.parallel_run (Some (Demo.geog <$> [1; 0; 2]%Z)) []).2 ∧
  exception_reports (Demo.parallel_run (Some (Demo.geog <$> [1; 0; 2]%Z)) []).2
    = [Exception "ValueError" "nothing to draw from"].
Proof.
  split; [vm_compute; reflexivity|]. split; vm_compute; reflexivity.
Qed.

(** ** Pairing of results and geography ids *)

(** C1 at the failing input: geographies 1 and 2 are submitted in this
    order and the fetch task of geography 2 finishes first.  The rows
    drawn for geography 2 come out with the key columns of geography 1,
    and the FitQuality entry of geography 1 is that of geography 2 (and
    the other way round).  When the fetch futures come out of
    [as_completed] in submission order, the result is that of the
    sequential driver. *)
Theorem reassembly_follows_fetch_completion_order :
  Demo.view (Demo.parallel_run (Some [Demo.geog 1; Demo.geog 2]) [1])
    = inr ([Demo.household 0 1 2; Demo.household 1 1 2; Demo.household 2 2 1],
           [Demo.person 0 2; Demo.person 1 2; Demo.person 2 1],
           [(Demo.key 1, mkFitQuality 2 1); (Demo.key 2, mkFitQuality 1 1)]) ∧
  Demo.view (Demo.parallel_run (Some [Demo.geog 1; Demo.geog 2]) [])
    = inr ([Demo.household 0 1 1; Demo.household 1 2 2; Demo.household 2 2 2],
           [Demo.person 0 1; Demo.person 1 2; Demo.person 2 2],
           [(Demo.key 1, mkFitQuality 1 1); (Demo.key 2, mkFitQuality 2 1)]) ∧
  Demo.view (Demo.sequential_run (Some [Demo.geog 1; Demo.geog 2]))
    = Demo.view (Demo.parallel_run (Some [Demo.geog 1; Demo.geog 2]) []).
Proof.
  split; [vm_compute; reflexivity|]. split; vm_compute; reflexivity.
Qed.

(** ** How many geographies are processed *)

Lemma submitted_take (num_geogs : option Z) (indexes : list geog_id) (c : Z) :
  submitted num_geogs indexes c
  = match num_geogs with
    | None => indexes
    | Some n => take (Z.to_nat (Z.max 1 (n - c))) indexes
    end.
Proof.
  revert c. induction indexes as [|g rest IH]; intros c; cbn [submitted].
  { destruct num_geogs; [by rewrite take_nil|done]. }
  destruct num_geogs as [n|]; cbn [reached].
  - case_bool_decide as Hn.
    + by replace (Z.to_nat (Z.max 1 (n - c))) with 1 by lia.
    + rewrite IH.
      replace (Z.to_nat (Z.max 1 (n - c)))
        with (S (Z.to_nat (Z.max 1 (n - (c + 1))))) by lia.
      done.
  - by rewrite IH.
Qed.

Lemma capped_nil (num_geogs : option Z) (indexes : list geog_id) :
  capped num_geogs indexes = [] ↔ indexes = [].
Proof.
  unfold capped. destruct num_geogs as [n|]; [|done]. split.
  - destruct indexes as [|g rest]; [done|].
    replace (Z.to_nat (Z.max 1 n)) with (S (Z.to_nat (Z.max 1 n) - 1)) by lia.
    done.
  - intros ->. by rewrite take_nil.
Qed.

Section Cap.
Context `{Collaborators}.
Variable recipe : Recipe.
Variables mzs jzs : Q.

Lemma synthesize_loop_take (n : Z) (indexes : list geog_id) (a : acc) log :
  synthesize_loop recipe (Some n) mzs jzs indexes a log
  = synthesize_loop recipe None mzs jzs
      (take (Z.to_nat (Z.max 1 (n - cnt a))) indexes) a log.
Proof.
  revert a log. induction indexes as [|g rest IH]; intros a log.
  { by rewrite take_nil. }
  replace (Z.to_nat (Z.max 1 (n - cnt a)))
    with (S (Z.to_nat (Z.max 1 (n - cnt a)) - 1)) by lia.
  cbn [take synthesize_loop]. rewrite !bind_run.
  destruct (synthesize_geog recipe mzs jzs g a log) as [[e|a'] l] eqn:E;
    [done|].
  apply synthesize_geog_inv in E as (hh & pe & c & p & key & _ & ->).
  cbn [cnt reached]. case_bool_decide as Hn.
  - by replace (Z.to_nat (Z.max 1 (n - cnt a)) - 1) with 0 by lia.
  - rewrite IH. cbn [cnt]. do 2 f_equal. lia.
Qed.

Lemma synthesize_loop_capped (num_geogs : option Z)
    (indexes : list geog_id) log :
  synthesize_loop recipe num_geogs mzs jzs indexes acc0 log
  = synthesize_loop recipe None mzs jzs (capped num_geogs indexes) acc0 log.
Proof.
  unfold capped. destruct num_geogs as [n|]; [|done].
  rewrite synthesize_loop_take. cbn. by rewrite Z.sub_0_r.
Qed.

(** X1.  Both drivers work on the same geographies: all of [indexes] without
    [num_geogs], else its first [num_geogs] ones and never fewer than one,
    whatever [num_geogs] is. *)
Theorem drivers_take_capped_indexes (num_geogs : option Z)
    (indexes : list geog_id) :
  submitted num_geogs indexes 0 = capped num_geogs indexes ∧
  (∀ log,
     synthesize_loop recipe num_geogs mzs jzs indexes acc0 log
     = synthesize_loop recipe None mzs jzs (capped num_geogs indexes)
         acc0 log) ∧
  (capped num_geogs indexes = [] ↔ indexes = []) ∧
  (∀ n, num_geogs = Some n → (n ≤ 1)%Z →
     capped num_geogs indexes = take 1 indexes).
Proof.
  split; [|split; [|split]].
  - rewrite submitted_take. unfold capped. destruct num_geogs as [n|]; [|done].
    by rewrite Z.sub_0_r.
  - intros log. apply synthesize_loop_capped.
  - apply capped_nil.
  - intros n -> Hn. unfold capped.
    by replace (Z.to_nat (Z.max 1 n)) with 1 by lia.
Qed.

End Cap.

Lemma drivers_take_capped_indexes_on_recipe :
  capped (Some 0%Z) (Demo.geog <$> [1; 2; 3]%Z) = [Demo.geog 1].
Proof.
  destruct (drivers_take_capped_indexes (H := Demo.collaborators)
              Demo.recipe 0.01 0.001 (Some 0%Z) (Demo.geog <$> [1; 2; 3]%Z))
    as (_ & _ & _ & Hone).
  exact (Hone 0%Z eq_refl (Z.le_0_1)).
Defined.

(** ** Logging has no influence on results *)

Lemma log_blind_ret {A} (x : A) : log_blind (mret x).
Proof. intros s l. by exists l. Qed.

Lemma log_blind_call {A} (r : exn + A) : log_blind (call r).
Proof. intros s l. by exists l. Qed.

Lemma log_blind_gets {A} (f : synth_state → A) :
  (∀ s l, f (with_log l s) = f s) → log_blind (gets f).
Proof. intros Hf s l. exists l. unfold gets. cbn. by rewrite Hf. Qed.

Lemma log_blind_modify (f : synth_state → synth_state) :
  (∀ s l, ∃ l', f (with_log l s) = with_log l' (f s)) →
  log_blind (modify f).
Proof.
  intros Hf s l. destruct (Hf s l) as [l' E]. exists l'.
  unfold modify. cbn. by rewrite E.
Qed.

Lemma log_blind_logger lv m : log_blind (logger lv m).
Proof. apply log_blind_modify. intros s l. by eexists. Qed.

Lemma log_blind_bind {A B} (m : M synth_state A) (f : A → M synth_state B) :
  log_blind m → (∀ x, log_blind (f x)) → log_blind (m ≫= f).
Proof.
  intros Hm Hf s l. rewrite !bind_run. destruct (Hm s l) as [l1 ->].
  destruct (m s) as [[e|x] s1]; cbn; [by exists l1|]. apply Hf.
Qed.

Ltac log_blind_steps :=
  repeat first
    [ apply log_blind_ret
    | apply log_blind_call
    | apply log_blind_logger
    | apply log_blind_gets; intros ? ?; reflexivity
    | apply log_blind_modify; intros ? ?; by eexists
    | apply log_blind_bind; [|intros ?]
    | match goal with
      | |- log_blind (match ?x with _ => _ end) => destruct x
      end ].

Lemma synthesize_fit_log_blind `{Collaborators} (mzs jzs : Q) :
  log_blind (synthesize_fit mzs jzs).
Proof.
  unfold synthesize_fit, synthesize_prepare, synthesize_weights,
    zero_guard, namespace_person_cat_ids.
  log_blind_steps.
Qed.

Lemma synthesize_log_blind `{Collaborators} (mzs jzs : Q) (start : Z) :
  log_blind (synthesize mzs jzs start).
Proof.
  unfold synthesize. apply log_blind_bind;
    [apply synthesize_fit_log_blind|].
  intros a. apply log_blind_call.
Qed.

(** What [synthesize] returns in the driving process is what it returns
    as a pool task. *)
Lemma call_synthesize_result `{Collaborators} args start log :
  (call_synthesize args start log).1 = pooled (call_synthesize args start).
Proof.
  unfold pooled, call_synthesize. cbn [fst].
  set (s := SynthState _ _ _ _ _ _ []).
  change (SynthState _ _ _ _ _ _ log) with (with_log log s).
  by destruct (synthesize_log_blind (a_marginal_zero_sub args)
                 (a_jd_zero_sub args) start s log) as [l' ->].
Qed.

(** ** The sequential driver returns all geographies or nothing *)

Section Sequential.
Context `{Collaborators}.
Variable recipe : Recipe.
Variable num_geogs : option Z.
Variables mzs jzs : Q.

(** What a fetch returns does not depend on the log it writes to. *)
Lemma geog_preprocessing_result (g : geog_id) (log : list event) :
  (geog_preprocessing recipe mzs jzs g log).1
  = pooled (geog_preprocessing recipe mzs jzs g).
Proof.
  cbv [pooled geog_preprocessing mbind M_bind mret M_ret call emit modify].
  destruct (get_household_marginal_for_geography recipe g); [done|].
  destruct (get_person_marginal_for_geography recipe g); [done|].
  destruct (get_household_joint_dist_for_geography recipe g) as [|[??]];
    [done|].
  by destruct (get_person_joint_dist_for_geography recipe g) as [|[??]].
Qed.

Lemma block_group_key_inv (g : geog_id) log key log' :
  block_group_key g log = (inr key, log') →
  has_keys g ∧ key_of g = Some key ∧ log' = log.
Proof.
  cbv [block_group_key key_of has_keys mbind M_bind mret M_ret call getitem
       option_bind].
  destruct (g !! "state"); [|done]. destruct (g !! "county"); [|done].
  destruct (g !! "tract"); [|done]. destruct (g !! "block group"); [|done].
  intros [= <- <-]. by repeat split.
Qed.

Lemma synthesize_geog_steps g a log a' log' :
  synthesize_geog recipe mzs jzs g a log = (inr a', log') →
  ∃ args hh pe c p key log1,
    pooled (geog_preprocessing recipe mzs jzs g) = inr args ∧
    call_synthesize args (hh_index_start a) log1
      = (inr (hh, pe, c, p), log') ∧
    key_of g = Some key ∧ has_keys g ∧
    a' = Acc (hh_list a ++ [append_location_identifiers g hh])
             (people_list a ++ [pe]) (cnt a + 1)
             (<[key := mkFitQuality c p]> (fit_quality a))
             (next_index_start (append_location_identifiers g hh)
                (hh_index_start a)).
Proof.
  unfold synthesize_geog. intros E.
  apply bind_inv in E as (args & l1 & Ea & E).
  apply bind_inv in E as ([[[hh pe] c] p] & l2 & Ec & E).
  apply bind_inv in E as (key & l3 & Ek & E).
  apply block_group_key_inv in Ek as (Hk & Hkey & ->).
  injection E as <- <-. exists args, hh, pe, c, p, key, l1.
  split; [by rewrite <- (geog_preprocessing_result g log), Ea|].
  by split; [|split; [|split]].
Qed.


(** The loop, as the calls of [synthesize] it makes. *)
Lemma synthesize_loop_trace gs a log a' log' :
  synthesize_loop recipe None mzs jzs gs a log = (inr a', log') →
  ∃ rs,
    sequential_trace recipe mzs jzs gs (hh_index_start a) rs ∧
    hh_list a' = hh_list a ++ located_tables gs rs ∧
    people_list a' = people_list a ++ (people_of <$> rs) ∧
    Forall has_keys gs.
Proof.
  revert a log. induction gs as [|g gs IH]; intros a log E; cbn in E.
  { injection E as <- _. exists []. by rewrite !app_nil_r. }
  apply bind_inv in E as (a1 & l1 & E1 & E).
  apply IH in E as (rs & Htr & Hh & Hp & Hk).
  apply synthesize_geog_steps in E1
    as (args & hh & pe & c & p & key & l0 & Ef & Ec & _ & Hg & ->).
  cbn [hh_list people_list hh_index_start] in Htr, Hh, Hp.
  exists ((hh, pe, c, p) :: rs). split; [|split; [|split]].
  - split; [|exact Htr]. exists args. split; [done|].
    by rewrite <- (call_synthesize_result args _ l0), Ec.
  - rewrite Hh, <- app_assoc. done.
  - rewrite Hp, <- app_assoc. done.
  - by constructor.
Qed.

Lemma synthesize_all_trace indexes log hh pe fq log' :
  synthesize_all recipe num_geogs mzs jzs indexes log
    = (inr (hh, pe, fq), log') →
  let gs := capped num_geogs (resolved recipe indexes) in
  gs ≠ [] ∧ Forall has_keys gs ∧
  ∃ rs,
    sequential_trace recipe mzs jzs gs 0 rs ∧
    hh = concat (located_tables gs rs) ∧
    pe = concat (people_of <$> rs).
Proof.
  intros E gs. unfold synthesize_all in E.
  apply bind_inv in E as (idx & l1 & Ei & E).
  apply default_indexes_inv in Ei as [-> ->].
  apply bind_inv in E as (n & l2 & _ & E).
  apply bind_inv in E as (a & l3 & El & E).
  rewrite synthesize_loop_capped in El. fold gs in El.
  apply synthesize_loop_trace in El as (rs & Htr & Hh & Hp & Hk).
  cbn in Htr, Hh, Hp.
  unfold concat_results in E.
  apply bind_inv in E as (x & l4 & Ex & E).
  apply bind_inv in E as (y & l5 & Ey & E).
  injection E as <- <- _ _.
  unfold call, pd_concat in Ex, Ey. rewrite Hh in Ex. rewrite Hp in Ey.
  split; [|split; [done|]].
  - intros Hgs. rewrite Hgs in Ex. done.
  - exists rs. split; [done|].
    destruct (located_tables gs rs); [done|].
    destruct (people_of <$> rs); [done|]. by simplify_eq.
Qed.

(** X2.  When [synthesize_all] returns, every geography it was to work on
    has been fetched, synthesized and keyed: there is at least one, every
    one of them has the four key fields, [synthesize] returned for the
    tables the recipe has for it, called with the offset the loop had
    reached, and the tables returned are these results put end to end,
    the household tables with the fields of their geography written on
    them.  (One geography that cannot be fetched or synthesized, or whose
    id lacks a key field, leaves the caller with no tables at all.) *)
Theorem synthesize_all_is_all_or_nothing indexes log hh pe fq log' :
  synthesize_all recipe num_geogs mzs jzs indexes log
    = (inr (hh, pe, fq), log') →
  let gs := capped num_geogs (resolved recipe indexes) in
  gs ≠ [] ∧ Forall has_keys gs ∧
  ∃ rs,
    length rs = length gs ∧
    sequential_trace recipe mzs jzs gs 0 rs ∧
    hh = concat (located_tables gs rs) ∧
    pe = concat (people_of <$> rs).
Proof.
  intros E gs.
  destruct (synthesize_all_trace _ _ _ _ _ _ E) as (Hne & Hk & rs & Htr & Hh).
  split; [done|]. split; [done|]. exists rs. split; [|by split].
  clear -Htr. fold gs in Htr. revert Htr. generalize 0%Z. generalize gs.
  clear gs. induction rs as [|r rs IH]; intros [|g gs] start; cbn; try done.
  intros [_ Htr]. f_equal. by eapply IH.
Qed.

End Sequential.

Lemma synthesize_all_is_all_or_nothing_on_recipe :
  ∃ hh pe fq log' rs,
    Demo.sequential_run None = (inr (hh, pe, fq), log') ∧
    Forall has_keys (Demo.geog <$> [1; 2; 3]%Z) ∧
    length rs = 3 ∧
    sequential_trace (H := Demo.collaborators) Demo.recipe 0.01 0.001
      (Demo.geog <$> [1; 2; 3]%Z) 0 rs ∧
    hh = concat (located_tables (Demo.geog <$> [1; 2; 3]%Z) rs) ∧
    pe = concat (people_of <$> rs).
Proof.
  destruct (run_succeeded (Demo.sequential_run None))
    as ([[hh pe] fq] & log' & E); [vm_compute; reflexivity|].
  destruct (synthesize_all_is_all_or_nothing (H := Demo.collaborators)
              Demo.recipe None 0.01 0.001 None [] hh pe fq log' E)
    as (_ & Hk & rs & Hlen & Htr & Hh & Hp).
  exists hh, pe, fq, log', rs. split; [exact E|]. split; [exact Hk|].
  split; [exact Hlen|]. split; [exact Htr|]. split; [exact Hh|exact Hp].
Defined.

(** ** The sequential driver on a failure *)

Lemma run_failed {S A} (r : (exn + A) * S) :
  succeeded r.1 = false → ∃ e s, r = (inl e, s).
Proof. destruct r as [[e|x] s]; [|done]. by exists e, s. Qed.

Section SequentialFailure.
Context `{Collaborators}.
Variable recipe : Recipe.
Variable num_geogs : option Z.
Variables mzs jzs : Q.

Lemma synthesize_loop_app (l1 l2 : list geog_id) (a : acc) log :
  synthesize_loop recipe None mzs jzs (l1 ++ l2) a log
  = (synthesize_loop recipe None mzs jzs l1 a
       ≫= synthesize_loop recipe None mzs jzs l2) log.
Proof.
  revert a log. induction l1 as [|g l1 IH]; intros a log; [done|].
  cbn [app synthesize_loop reached]. rewrite !bind_run.
  destruct (synthesize_geog recipe mzs jzs g a log) as [[e|a1] l]; [done|].
  by rewrite IH, bind_run.
Qed.

(** X3.  The sequential driver isolates nothing.  It asks the recipe for the
    number of geographies before the first fetch, also when it was given
    [indexes], and raises what that call raises.  And when the fetch, the
    synthesis or the key of a geography raises, the driver raises that
    exception with the log as it stood: the tables of the geographies before
    are lost and no geography after it is fetched. *)
Theorem synthesize_all_raises_the_first_failure
    (idx : list geog_id) (log : list event) :
  (∀ e, get_num_geographies recipe = inl e →
     synthesize_all recipe num_geogs mzs jzs (Some idx) log = (inl e, log)) ∧
  (∀ n pre g post a l1 e l2,
     get_num_geographies recipe = inr n →
     capped num_geogs idx = pre ++ g :: post →
     synthesize_loop recipe None mzs jzs pre acc0 log = (inr a, l1) →
     synthesize_geog recipe mzs jzs g a l1 = (inl e, l2) →
     synthesize_all recipe num_geogs mzs jzs (Some idx) log = (inl e, l2)).
Proof.
  split.
  - intros e He. unfold synthesize_all. cbn [default_indexes].
    rewrite bind_run. cbn. rewrite bind_run. unfold call. by rewrite He.
  - intros n pre g post a l1 e l2 Hn Hidx Hpre Hg.
    unfold synthesize_all. cbn [default_indexes].
    rewrite bind_run. cbn. rewrite bind_run. unfold call. rewrite Hn.
    rewrite bind_run, synthesize_loop_capped, Hidx, synthesize_loop_app.
    rewrite bind_run, Hpre. cbn [synthesize_loop]. by rewrite bind_run, Hg.
Qed.

End SequentialFailure.

Lemma synthesize_all_raises_on_recipe :
  (Demo.sequential_run (Some [Demo.geog 1; Demo.geog 13; Demo.geog 2])).1
  = inl (Exception "IOError" "no marginal") ∧
  synthesize_all (H := Demo.collaborators)
    (mkRecipe (get_available_geography_ids Demo.recipe)
       (inl (Exception "IOError" "no count"))
       (get_household_marginal_for_geography Demo.recipe)
       (get_person_marginal_for_geography Demo.recipe)
       (get_household_joint_dist_for_geography Demo.recipe)
       (get_person_joint_dist_for_geography Demo.recipe))
    None 0.01 0.001 (Some [Demo.geog 1]) []
  = (inl (Exception "IOError" "no count"), []).
Proof.
  split;
    [|apply (proj1 (synthesize_all_raises_the_first_failure
                      (H := Demo.collaborators) _ None 0.01 0.001
                      [Demo.geog 1] [])); reflexivity].
  destruct (run_succeeded
              (synthesize_loop (H := Demo.collaborators) Demo.recipe None
                 0.01 0.001 [Demo.geog 1] acc0 []))
    as (a & l1 & Ea); [vm_compute; reflexivity|].
  destruct (run_failed
              (synthesize_geog (H := Demo.collaborators) Demo.recipe
                 0.01 0.001 (Demo.geog 13) a l1))
    as (e & l2 & Eg); [vm_compute; reflexivity|].
  pose proof (proj2 (synthesize_all_raises_the_first_failure
                       (H := Demo.collaborators) Demo.recipe None 0.01 0.001
                       [Demo.geog 1; Demo.geog 13; Demo.geog 2] [])
                3%Z [Demo.geog 1] (Demo.geog 13) [Demo.geog 2] a l1 e l2
                eq_refl eq_refl Ea Eg) as E.
  unfold Demo.sequential_run. rewrite E. cbn [fst]. f_equal.
  assert (errors [(synthesize_geog (H := Demo.collaborators) Demo.recipe
                     0.01 0.001 (Demo.geog 13) a l1).1]
          = [Exception "IOError" "no marginal"]) as E1
    by (vm_compute; reflexivity).
  rewrite Eg in E1. by injection E1.
Defined.

(** ** Collection of the fetched inputs *)

Lemma mapM_call_inl {A} (fs : list (exn + A)) (log : list event) :
  Exists (λ f, succeeded f = false) fs →
  ∃ e, inl e ∈ fs ∧ mapM call fs log = (inl e, log).
Proof.
  induction fs as [|f fs IH]; intros Hex; [by apply Exists_nil in Hex|].
  destruct f as [e|x].
  - exists e. split; [left|done].
  - apply Exists_cons in Hex as [Hx|Hex]; [done|].
    destruct (IH Hex) as (e & He & Hrun). exists e. split; [by right|].
    cbn. rewrite bind_run. cbn. rewrite bind_run. by rewrite Hrun.
Qed.

Lemma mapM_call_inr {A} (fs : list (exn + A)) (log : list event) :
  Forall (λ f, succeeded f = true) fs →
  ∃ xs, fs = inr <$> xs ∧ mapM call fs log = (inr xs, log).
Proof.
  induction fs as [|f fs IH]; intros Hall; [by exists []|].
  apply Forall_cons_1 in Hall as [Hf Hall]. destruct f as [e|x]; [done|].
  destruct (IH Hall) as (xs & -> & Hrun). exists (x :: xs). split; [done|].
  cbn. rewrite bind_run. cbn. rewrite bind_run. by rewrite Hrun.
Qed.

Section Collection.
Context `{Collaborators}.
Variable recipe : Recipe.
Variable num_geogs : option Z.
Variables mzs jzs : Q.

Lemma submit_and_collect_run (idx : list geog_id) sched1 log :
  submit_and_collect recipe num_geogs mzs jzs (Some idx) sched1 log
  = match
      mapM call
        (as_completed sched1
           ((λ g, pooled (geog_preprocessing recipe mzs jzs g))
              <$> capped num_geogs idx))
        (log ++ [Print "Submitting function args for parallel processing:";
                 Print "Processing function args in parallel:"])
    with
    | (inl e, l) => (inl e, l)
    | (inr finished, l) => (inr (capped num_geogs idx, finished), l)
    end.
Proof.
  unfold submit_and_collect. cbn [default_indexes].
  rewrite bind_run. cbn. rewrite bind_run. cbn. rewrite bind_run. cbn.
  rewrite bind_run, <- app_assoc. cbn [app].
  rewrite submitted_take. unfold capped.
  replace (match num_geogs with
           | Some n => take (Z.to_nat (Z.max 1 (n - 0))) idx
           | None => idx
           end)
    with (match num_geogs with
          | Some n => take (Z.to_nat (Z.max 1 n)) idx
          | None => idx
          end)
    by (destruct num_geogs; [by rewrite Z.sub_0_r|done]).
  by destruct (mapM call _ _) as [[e|fin] l].
Qed.

(** X4.  The inputs of all geographies are fetched before any synthesis task
    is submitted.  When one fetch task raises, the parallel driver raises
    the exception of a failed fetch task, right after its first two lines of
    output: no synthesis is started and no table is returned. When every
    fetch task succeeds, the collection returns the geography ids in the
    order of [indexes] and one argument tuple per geography, the tuples of
    the fetch tasks in some order. *)
Theorem fetches_are_collected_before_synthesis
    (idx : list geog_id) (sched1 sched2 : list nat) (log : list event) :
  let geog_ids := capped num_geogs idx in
  let tasks := (λ g, pooled (geog_preprocessing recipe mzs jzs g))
                 <$> geog_ids in
  let log1 := log ++
    [Print "Submitting function args for parallel processing:";
     Print "Processing function args in parallel:"] in
  (Exists (λ t, succeeded t = false) tasks →
   ∃ e, inl e ∈ tasks ∧
     synthesize_all_in_parallel recipe num_geogs mzs jzs (Some idx)
       sched1 sched2 log = (inl e, log1)) ∧
  (Forall (λ t, succeeded t = true) tasks →
   ∃ finished,
     submit_and_collect recipe num_geogs mzs jzs (Some idx) sched1 log
       = (inr (geog_ids, finished), log1) ∧
     inr <$> finished ≡ₚ tasks ∧ length finished = length geog_ids).
Proof.
  intros geog_ids tasks log1. split.
  - intros Hex.
    destruct (mapM_call_inl (as_completed sched1 tasks) log1)
      as (e & He & Hrun).
    { by rewrite (as_completed_Permutation sched1 tasks). }
    exists e. split.
    { by rewrite <- (as_completed_Permutation sched1 tasks). }
    unfold synthesize_all_in_parallel.
    rewrite bind_run, submit_and_collect_run.
    fold geog_ids. fold tasks. fold log1. by rewrite Hrun.
  - intros Hall.
    destruct (mapM_call_inr (as_completed sched1 tasks) log1)
      as (finished & Hfin & Hrun).
    { by rewrite (as_completed_Permutation sched1 tasks). }
    exists finished. rewrite submit_and_collect_run.
    fold geog_ids. fold tasks. fold log1. rewrite Hrun.
    split; [done|].
    assert (inr <$> finished ≡ₚ tasks) as Hperm.
    { rewrite <- Hfin. apply as_completed_Permutation. }
    split; [done|]. apply Permutation_length in Hperm.
    subst tasks. by rewrite !length_fmap in Hperm.
Qed.

End Collection.

Lemma fetches_are_collected_on_recipe :
  (∃ e, Demo.parallel_run (Some (Demo.geog <$> [1; 13; 2]%Z)) [2]
        = (inl e,
           [Print "Submitting function args for parallel processing:";
            Print "Processing function args in parallel:"])) ∧
  (∃ finished,
     submit_and_collect Demo.recipe None 0.01 0.001
       (Some (Demo.geog <$> [1; 2]%Z)) [1] []
     = (inr (Demo.geog <$> [1; 2]%Z, finished),
        [Print "Submitting function args for parallel processing:";
         Print "Processing function args in parallel:"])).
Proof.
  split.
  - destruct (proj1 (fetches_are_collected_before_synthesis
                       (H := Demo.collaborators) Demo.recipe None 0.01 0.001
                       (Demo.geog <$> [1; 13; 2]%Z) [2] [] []))
      as (e & _ & E).
    { apply Exists_cons_tl, Exists_cons_hd. vm_compute. reflexivity. }
    exists e. exact E.
  - destruct (proj2 (fetches_are_collected_before_synthesis
                       (H := Demo.collaborators) Demo.recipe None 0.01 0.001
                       (Demo.geog <$> [1; 2]%Z) [1] [] []))
      as (finished & E & _).
    { repeat apply Forall_cons_2; [..|apply Forall_nil_2];
        vm_compute; reflexivity. }
    exists finished. exact E.
Defined.

(** ** What the reassembly loop does not catch *)

Section Uncaught.
Context `{Collaborators}.

Lemma block_group_key_missing (g : geog_id) :
  ¬ has_keys g →
  ∃ k, k ∈ ["state"; "county"; "tract"; "block group"] ∧ g !! k = None ∧
    ∀ log, block_group_key g log = (inl (Exception "KeyError" k), log).
Proof.
  intros Hno.
  cbv [block_group_key mbind M_bind mret M_ret call getitem].
  destruct (g !! "state") as [s|] eqn:Es;
    [|exists "state"; split; [set_solver|done]].
  destruct (g !! "county") as [c|] eqn:Ec;
    [|exists "county"; split; [set_solver|done]].
  destruct (g !! "tract") as [t|] eqn:Et;
    [|exists "tract"; split; [set_solver|done]].
  destruct (g !! "block group") as [b|] eqn:Eb;
    [|exists "block group"; split; [set_solver|done]].
  destruct Hno. unfold has_keys. by rewrite Es, Ec, Et, Eb.
Qed.

#[local] Instance has_keys_dec (g : geog_id) : Decision (has_keys g).
Proof. unfold has_keys. apply _. Qed.

Lemma reassemble_slots_all_failed
    (slots : list (geog_id * (exn + (households * people * Q * Q)))) a log :
  Forall (λ s, succeeded s.2 = false) slots →
  reassemble_slots slots a log
  = (inr a, log ++ (PrintException <$> errors slots.*2)).
Proof.
  revert log. induction slots as [|[g f] slots IH]; intros log Hall.
  { cbn. by rewrite app_nil_r. }
  apply Forall_cons_1 in Hall as [Hf Hall]. destruct f as [e|r]; [|done].
  cbn [reassemble_slots reassemble_one]. rewrite !bind_run. cbn.
  rewrite IH by done. by rewrite <- app_assoc.
Qed.

Lemma reassemble_slots_missing_key
    (slots : list (geog_id * (exn + (households * people * Q * Q)))) a log :
  Exists (λ s, succeeded s.2 = true ∧ ¬ has_keys s.1) slots →
  ∃ g k, g ∈ slots.*1 ∧
    k ∈ ["state"; "county"; "tract"; "block group"] ∧ g !! k = None ∧
    (reassemble_slots slots a log).1 = inl (Exception "KeyError" k).
Proof.
  revert a log. induction slots as [|[g f] slots IH]; intros a log Hex.
  { by apply Exists_nil in Hex. }
  assert (Htl : ∀ a' l',
            Exists (λ s, succeeded s.2 = true ∧ ¬ has_keys s.1) slots →
            ∃ g0 k, g0 ∈ (g :: slots.*1) ∧
              k ∈ ["state"; "county"; "tract"; "block group"] ∧
              g0 !! k = None ∧
              (reassemble_slots slots a' l').1
                = inl (Exception "KeyError" k)).
  { intros a' l' Hx. destruct (IH a' l' Hx) as (g0 & k & Hg0 & Hk & Hn & E).
    exists g0, k. split; [by right|done]. }
  cbn [reassemble_slots]. rewrite bind_run. destruct f as [e|[[[hh pe] c] p]].
  - apply Exists_cons in Hex as [[Hf _]|Hex]; [done|]. cbn.
    by apply Htl.
  - rewrite reassemble_one_result. destruct (decide (has_keys g)) as [Hg|Hg].
    + destruct (block_group_key_has_keys g Hg) as [key Hkey].
      rewrite Hkey. cbn.
      apply Exists_cons in Hex as [[_ Hno]|Hex]; [done|]. by apply Htl.
    + destruct (block_group_key_missing g Hg) as (k & Hk & Hn & Hkey).
      rewrite Hkey. cbn. exists g, k. split; [left|done].
Qed.

(** X5.  The try/except of the reassembly loop covers [future.result()] and
    nothing after it.  A synthesis task that succeeded for a geography id
    without one of the four key fields makes the parallel driver raise
    KeyError for that field; and when no task succeeded the driver has
    printed one line per exception and raises the ValueError of [pd.concat]
    on an empty list.  So the driver returns tables only if a task succeeded
    and the ids of all that did have the key fields. *)
Theorem reassembly_raises_without_keyed_results
    (geog_ids : list geog_id)
    (futures : list (exn + (households * people * Q * Q)))
    (log : list event) :
  length futures ≤ length geog_ids →
  let ok := surviving geog_ids futures in
  let run := process_results geog_ids futures log in
  (ok = [] →
   run = (inl (Exception "ValueError" "No objects to concatenate"),
          log ++ [Print "Processing results:"] ++
            (PrintException <$> errors futures))) ∧
  (Exists (λ g, ¬ has_keys g) ok.*1 →
   ∃ g k, g ∈ geog_ids ∧
     k ∈ ["state"; "county"; "tract"; "block group"] ∧ g !! k = None ∧
     run.1 = inl (Exception "KeyError" k)) ∧
  (succeeded run.1 = true → ok ≠ [] ∧ Forall has_keys ok.*1).
Proof.
  intros Hlen ok run.
  assert (Hrun : run = match reassemble_slots (zip geog_ids futures)
                               (Acc [] [] (Z.of_nat (length geog_ids)) ∅ 0)
                               (log ++ [Print "Processing results:"]) with
                       | (inl e, l) => (inl e, l)
                       | (inr a, l) => concat_results a l
                       end).
  { subst run. unfold process_results. rewrite bind_run. cbn.
    rewrite bind_run, reassemble_zip by (cbn; lia). by rewrite drop_0. }
  assert (Ha : ok = [] →
    run = (inl (Exception "ValueError" "No objects to concatenate"),
           log ++ [Print "Processing results:"] ++
             (PrintException <$> errors futures))).
  { intros Hok. rewrite Hrun, reassemble_slots_all_failed.
    - rewrite snd_zip by lia. by rewrite <- app_assoc.
    - apply Forall_forall. intros s Hs.
      destruct (succeeded s.2) eqn:Es; [|done].
      assert (s ∈ ok) as Hin.
      { apply list_elem_of_filter. split; [by rewrite Es|done]. }
      rewrite Hok in Hin. by apply elem_of_nil in Hin. }
  assert (Hc : Exists (λ g, ¬ has_keys g) ok.*1 →
    ∃ g k, g ∈ geog_ids ∧
      k ∈ ["state"; "county"; "tract"; "block group"] ∧ g !! k = None ∧
      run.1 = inl (Exception "KeyError" k)).
  { intros Hex. apply Exists_exists in Hex as (g & Hg & Hno).
    apply list_elem_of_fmap in Hg as ([g' f] & -> & Hs).
    apply list_elem_of_filter in Hs as [Hf Hs]. cbn in Hf, Hno.
    destruct (reassemble_slots_missing_key (zip geog_ids futures)
                (Acc [] [] (Z.of_nat (length geog_ids)) ∅ 0)
                (log ++ [Print "Processing results:"]))
      as (g0 & k & Hg0 & Hk & Hn & E).
    { apply Exists_exists. exists (g', f). split; [done|]. cbn.
      split; [by destruct (succeeded f)|done]. }
    exists g0, k. split.
    { apply list_elem_of_fmap in Hg0 as ([g1 f1] & -> & Hz).
      by apply elem_of_zip_l in Hz. }
    split; [done|]. split; [done|]. rewrite Hrun. revert E.
    destruct (reassemble_slots _ _ _) as [[e|a] l]; cbn; [|done].
    by intros [= ->]. }
  split; [done|]. split; [done|]. intros Hs. split.
  - intros Hok. rewrite (Ha Hok) in Hs. done.
  - apply Forall_forall. intros g Hg.
    destruct (decide (has_keys g)) as [|Hno]; [done|].
    destruct Hc as (g0 & k & _ & _ & _ & E).
    { apply Exists_exists. by exists g. }
    by rewrite E in Hs.
Qed.

End Uncaught.

Lemma reassembly_raises_on_recipe :
  process_results [Demo.geog 1]
    [inl (Exception "ValueError" "nothing to draw from")] []
  = (inl (Exception "ValueError" "No objects to concatenate"),
     [Print "Processing results:";
      PrintException (Exception "ValueError" "nothing to draw from")]) ∧
  ∃ k, (process_results
          [{[ "state" := CStr "06" ]}] [inr ([], [], 0%Q, 1%Q)] []).1
       = inl (Exception "KeyError" k).
Proof.
  split.
  - refine (proj1 (reassembly_raises_without_keyed_results
                     (H := Demo.collaborators) [Demo.geog 1]
                     [inl (Exception "ValueError" "nothing to draw from")] []
                     (le_n 1)) _).
    vm_compute. reflexivity.
  - destruct (proj1 (proj2 (reassembly_raises_without_keyed_results
                     (H := Demo.collaborators) [{[ "state" := CStr "06" ]}]
                     [inr ([], [], 0%Q, 1%Q)] [] (le_n 1))))
      as (g & k & _ & _ & _ & E).
    { apply Exists_cons_hd. intros (_ & [c Hc] & _). vm_compute in Hc.
      discriminate Hc. }
    exists k. exact E.
Defined.

(** ** The FitQuality map *)

Lemma list_to_map_snoc_union {K A} `{Countable K} (l : list (K * A)) k v
    (m : gmap K A) :
  list_to_map (l ++ [(k, v)]) ∪ m = list_to_map l ∪ <[k := v]> m.
Proof.
  induction l as [|[k' v'] l IH]; cbn.
  - by rewrite <- insert_union_l, !(left_id_L ∅ (∪)).
  - by rewrite <- !insert_union_l, IH.
Qed.

Lemma fit_entries_cons_inr g hh pe c p key slots :
  key_of g = Some key →
  fit_entries ((g, inr (hh, pe, c, p)) :: slots)
  = (key, mkFitQuality c p) :: fit_entries slots.
Proof. unfold fit_entries. cbn. by intros ->. Qed.

Section FitQualityMap.
Context `{Collaborators}.

Lemma reassemble_slots_fit_quality slots a log a' log' :
  reassemble_slots slots a log = (inr a', log') →
  fit_quality a'
  = list_to_map (reverse (fit_entries slots)) ∪ fit_quality a.
Proof.
  revert a log. induction slots as [|[g f] slots IH]; intros a log E.
  { injection E as <- _. cbn. by rewrite (left_id_L ∅ (∪)). }
  cbn [reassemble_slots] in E. apply bind_inv in E as (a1 & l1 & E1 & E).
  apply IH in E as ->. destruct f as [e|[[[hh pe] c] p]].
  - cbn in E1. rewrite bind_run in E1. cbn in E1. by injection E1 as <- _.
  - rewrite reassemble_one_result in E1.
    destruct (block_group_key g log) as [[e|key] l0] eqn:Ek; [done|].
    apply block_group_key_inv in Ek as (_ & Hkey & _).
    cbn in E1. injection E1 as <- _. cbn [fit_quality].
    rewrite (fit_entries_cons_inr _ _ _ _ _ _ _ Hkey), reverse_cons.
    by rewrite list_to_map_snoc_union.
Qed.

(** X6.  The FitQuality map the parallel driver returns holds, for every
    slot whose synthesis succeeded, the fit of that slot's result under the
    key of the slot's geography id; when several of these ids have the same
    four key fields, the entry of the last slot is the one that stays. *)
Theorem fit_quality_of_reassembly
    (geog_ids : list geog_id)
    (futures : list (exn + (households * people * Q * Q)))
    (log : list event) hh pe fq log' :
  length futures ≤ length geog_ids →
  process_results geog_ids futures log = (inr (hh, pe, fq), log') →
  fq = list_to_map (reverse (fit_entries (zip geog_ids futures))) ∧
  (∀ key, is_Some (fq !! key) ↔
     ∃ g r, (g, inr r) ∈ zip geog_ids futures ∧ key_of g = Some key).
Proof.
  intros Hlen E. unfold process_results in E.
  apply bind_inv in E as ([] & l1 & _ & E).
  apply bind_inv in E as (a & l2 & Er & E).
  apply concat_results_inv in E as (_ & _ & -> & _).
  rewrite reassemble_zip in Er by (cbn; lia). rewrite drop_0 in Er.
  apply reassemble_slots_fit_quality in Er. cbn in Er.
  rewrite (right_id_L ∅ (∪)) in Er. split; [done|].
  intros key. rewrite Er. split.
  - intros [q Hq]. apply elem_of_list_to_map_2 in Hq.
    rewrite elem_of_reverse in Hq. unfold fit_entries in Hq.
    apply list_elem_of_omap in Hq as ([g f] & Hin & Hq). cbn in Hq.
    destruct f as [e|[[[h0 p0] c] p]]; [done|].
    destruct (key_of g) as [k|] eqn:Ek; [|done]. cbn in Hq.
    injection Hq as -> _. by exists g, (h0, p0, c, p).
  - intros (g & [[[h0 p0] c] p] & Hin & Hk).
    apply not_eq_None_Some. intros Hnone.
    apply not_elem_of_list_to_map in Hnone. apply Hnone.
    apply list_elem_of_fmap. exists (key, mkFitQuality c p). split; [done|].
    rewrite elem_of_reverse. unfold fit_entries. apply list_elem_of_omap.
    exists (g, inr (h0, p0, c, p)). split; [done|]. cbn. by rewrite Hk.
Qed.

End FitQualityMap.

Section SequentialFitQuality.
Context `{Collaborators}.
Variable recipe : Recipe.
Variable num_geogs : option Z.
Variables mzs jzs : Q.

Lemma synthesize_loop_fit_quality gs a log a' log' :
  synthesize_loop recipe None mzs jzs gs a log = (inr a', log') →
  ∀ key, is_Some (fit_quality a' !! key) ↔
    is_Some (fit_quality a !! key) ∨ ∃ g, g ∈ gs ∧ key_of g = Some key.
Proof.
  revert a log. induction gs as [|g gs IH]; intros a log E key; cbn in E.
  { injection E as <- _. split; [by left|]. intros [|(g & Hg & _)]; [done|].
    by apply elem_of_nil in Hg. }
  apply bind_inv in E as (a1 & l1 & E1 & E).
  rewrite (IH _ _ E key).
  apply synthesize_geog_steps in E1
    as (args & hh & pe & c & p & k & l0 & _ & _ & Hk & _ & ->).
  cbn [fit_quality]. rewrite lookup_insert_is_Some. split.
  - intros [[<-|[_ Ha]]|(g' & Hg' & Hk')].
    + right. exists g. split; [left|done].
    + by left.
    + right. exists g'. split; [by right|done].
  - intros [Ha|(g' & Hg' & Hk')].
    + destruct (decide (k = key)) as [->|Hne]; left; [by left|by right].
    + apply elem_of_cons in Hg' as [->|Hg'].
      * left. left. congruence.
      * right. by exists g'.
Qed.

(** X7.  The FitQuality map [synthesize_all] returns has an entry under the
    key of every geography it worked on and under no other key. *)
Theorem fit_quality_keys_of_synthesize_all indexes log hh pe fq log' :
  synthesize_all recipe num_geogs mzs jzs indexes log
    = (inr (hh, pe, fq), log') →
  ∀ key, is_Some (fq !! key) ↔
    ∃ g, g ∈ capped num_geogs (resolved recipe indexes) ∧
         key_of g = Some key.
Proof.
  intros E key. apply synthesize_all_inv in E as (a & log1 & El & _ & _ & ->).
  rewrite synthesize_loop_capped in El.
  rewrite (synthesize_loop_fit_quality _ _ _ _ _ El key). cbn.
  rewrite lookup_empty. split; [|by right].
  intros [[? ?]|?]; done.
Qed.

End SequentialFitQuality.

Lemma fit_quality_of_reassembly_on_recipe :
  ∃ hh pe fq log',
    process_results
      [Demo.geog 1; <["block" := CStr "1004"]> (Demo.geog 1)]
      [inr ([], [], 1%Q, 1%Q); inr ([], [], 2%Q, 1%Q)] []
    = (inr (hh, pe, fq), log') ∧
    fq !! Demo.key 1 = Some (mkFitQuality 2 1) ∧
    is_Some (fq !! Demo.key 1).
Proof.
  destruct (run_succeeded
              (process_results
                 [Demo.geog 1; <["block" := CStr "1004"]> (Demo.geog 1)]
                 [inr ([], [], 1%Q, 1%Q); inr ([], [], 2%Q, 1%Q)] []))
    as ([[hh pe] fq] & log' & E); [vm_compute; reflexivity|].
  exists hh, pe, fq, log'. split; [exact E|].
  destruct (fit_quality_of_reassembly (H := Demo.collaborators)
              [Demo.geog 1; <["block" := CStr "1004"]> (Demo.geog 1)]
              [inr ([], [], 1%Q, 1%Q); inr ([], [], 2%Q, 1%Q)] []
              hh pe fq log' (le_n 2) E) as [Hfq Hkeys].
  split.
  - rewrite Hfq. vm_compute. reflexivity.
  - apply Hkeys. exists (Demo.geog 1), ([], [], 1%Q, 1%Q).
    split; [left|vm_compute; reflexivity].
Defined.

Lemma fit_quality_keys_on_recipe :
  ∃ hh pe fq log',
    Demo.sequential_run None = (inr (hh, pe, fq), log') ∧
    is_Some (fq !! Demo.key 2) ∧ fq !! Demo.key 4 = None.
Proof.
  destruct (run_succeeded (Demo.sequential_run None))
    as ([[hh pe] fq] & log' & E); [vm_compute; reflexivity|].
  exists hh, pe, fq, log'. split; [exact E|].
  pose proof (fit_quality_keys_of_synthesize_all (H := Demo.collaborators)
                Demo.recipe None 0.01 0.001 None [] hh pe fq log' E)
    as Hkeys.
  split.
  - apply Hkeys. exists (Demo.geog 2).
    split; [right; left|vm_compute; reflexivity].
  - apply eq_None_not_Some. intros Hs.
    apply Hkeys in Hs as (g & Hg & Hk). cbn in Hg.
    repeat (apply elem_of_cons in Hg as [->|Hg];
            [vm_compute in Hk; discriminate Hk|]).
    by apply elem_of_nil in Hg.
Defined.

(** ** Rows and columns of the tables returned *)

Lemma shift_index_append_location_identifiers k g hh :
  shift_index k (append_location_identifiers g hh)
  = append_location_identifiers g (shift_index k hh).
Proof.
  rewrite !append_location_identifiers_union. unfold shift_index.
  by rewrite <- !list_fmap_compose.
Qed.

(** X8.  Appending the location identifiers keeps the rows and their ids. On
    every row, a column named like a field of the geography id holds that
    field's value afterwards, whether the row had such a column or not, and
    every other column is as it was.  Doing it twice is doing it once, and
    it commutes with the shift of the ids. *)
Theorem location_identifiers_replace_columns (g : geog_id) (hh : households) :
  ids (append_location_identifiers g hh) = ids hh ∧
  (∀ k, (λ r, hh_cols r !! k) <$> append_location_identifiers g hh
        = match g !! k with
          | Some v => (λ _, Some v) <$> hh
          | None => (λ r, hh_cols r !! k) <$> hh
          end) ∧
  append_location_identifiers g (append_location_identifiers g hh)
    = append_location_identifiers g hh ∧
  (∀ k, shift_index k (append_location_identifiers g hh)
        = append_location_identifiers g (shift_index k hh)).
Proof.
  split; [apply ids_append_location_identifiers|]. split; [|split].
  - intros k. rewrite append_location_identifiers_union.
    rewrite <- list_fmap_compose.
    destruct (g !! k) as [v|] eqn:Eg; apply list_fmap_ext; intros _ r _; cbn.
    + by apply lookup_union_Some_l.
    + by rewrite lookup_union_r.
  - rewrite !append_location_identifiers_union, <- list_fmap_compose.
    apply list_fmap_ext. intros _ r _. cbn.
    by rewrite (assoc_L (∪)), (idemp_L (∪)).
  - intros k. apply shift_index_append_location_identifiers.
Qed.

Section Rows.
Context `{Collaborators}.

Lemma results_of_cons_inr g r slots :
  results_of ((g, inr r) :: slots) = (g, r) :: results_of slots.
Proof. done. Qed.

Lemma reassemble_slots_rows slots a log a' log' :
  reassemble_slots slots a log = (inr a', log') →
  hh_cols <$> concat (hh_list a')
  = (hh_cols <$> concat (hh_list a)) ++
    concat (located_cells <$> results_of slots) ∧
  p_cols <$> concat (people_list a')
  = (p_cols <$> concat (people_list a)) ++
    concat (person_cells <$> results_of slots).
Proof.
  revert a log. induction slots as [|[g f] slots IH]; intros a log E.
  { injection E as <- _. cbn. by rewrite !app_nil_r. }
  cbn [reassemble_slots] in E. apply bind_inv in E as (a1 & l1 & E1 & E).
  apply IH in E as [-> ->]. destruct f as [e|[[[hh pe] c] p]].
  - cbn in E1. rewrite bind_run in E1. cbn in E1. by injection E1 as <- _.
  - rewrite reassemble_one_result in E1.
    destruct (block_group_key g log) as [[e|key] l0]; [done|].
    cbn in E1. injection E1 as <- _. cbn [hh_list people_list].
    rewrite results_of_cons_inr, !fmap_cons. cbn [concat].
    rewrite !concat_app, !fmap_app. cbn [concat].
    rewrite !app_nil_r, <- !app_assoc. split; f_equal; f_equal.
    + rewrite append_location_identifiers_union.
      unfold shift_index, located_cells.
      by rewrite <- !list_fmap_compose.
    + unfold shift_hh_id, person_cells. by rewrite <- list_fmap_compose.
Qed.

(** X9.  The reassembly neither drops, adds nor reorders rows of the results
    it keeps: the household rows returned are, slot after slot, the
    household rows of the results with the fields of the slot's geography id
    written over their columns, and the person rows are the person rows of
    the results with their columns untouched. *)
Theorem reassembly_keeps_the_rows
    (geog_ids : list geog_id)
    (futures : list (exn + (households * people * Q * Q)))
    (log : list event) hh pe fq log' :
  length futures ≤ length geog_ids →
  process_results geog_ids futures log = (inr (hh, pe, fq), log') →
  let kept := results_of (zip geog_ids futures) in
  hh_cols <$> hh
    = concat (located_cells <$> kept) ∧
  p_cols <$> pe = concat (person_cells <$> kept) ∧
  length hh = sum_list ((λ s, length (located_cells s)) <$> kept) ∧
  length pe = sum_list ((λ s, length (person_cells s)) <$> kept).
Proof.
  intros Hlen E kept. unfold process_results in E.
  apply bind_inv in E as ([] & l1 & _ & E).
  apply bind_inv in E as (a & l2 & Er & E).
  apply concat_results_inv in E as (-> & -> & _ & _).
  rewrite reassemble_zip in Er by (cbn; lia). rewrite drop_0 in Er.
  apply reassemble_slots_rows in Er as [Hh Hp]. cbn in Hh, Hp.
  fold kept in Hh, Hp. split; [done|]. split; [done|].
  apply (f_equal length) in Hh. apply (f_equal length) in Hp.
  rewrite length_fmap in Hh. rewrite length_fmap in Hp. rewrite Hh, Hp.
  clear. split; induction kept as [|s kept IH]; cbn; try done;
    by rewrite length_app, IH.
Qed.

End Rows.

Lemma reassembly_keeps_the_rows_on_recipe :
  ∃ hh pe fq log',
    process_results [Demo.geog 1; Demo.geog 2; Demo.geog 3]
      [inr ([mkHh 0 {[ "tract" := CInt 7 ]}], [], 1%Q, 1%Q);
       inl (Exception "ValueError" "nothing to draw from");
       inr ([mkHh 0 ∅; mkHh 1 ∅], [mkPerson 1 ∅], 2%Q, 1%Q)] []
    = (inr (hh, pe, fq), log') ∧
    hh_cols <$> hh = [Demo.geog 1; Demo.geog 3; Demo.geog 3] ∧
    length pe = 1.
Proof.
  destruct (run_succeeded
    (process_results [Demo.geog 1; Demo.geog 2; Demo.geog 3]
      [inr ([mkHh 0 {[ "tract" := CInt 7 ]}], [], 1%Q, 1%Q);
       inl (Exception "ValueError" "nothing to draw from");
       inr ([mkHh 0 ∅; mkHh 1 ∅], [mkPerson 1 ∅], 2%Q, 1%Q)] []))
    as ([[hh pe] fq] & log' & E); [vm_compute; reflexivity|].
  exists hh, pe, fq, log'. split; [exact E|].
  destruct (reassembly_keeps_the_rows (H := Demo.collaborators)
              [Demo.geog 1; Demo.geog 2; Demo.geog 3]
              [inr ([mkHh 0 {[ "tract" := CInt 7 ]}], [], 1%Q, 1%Q);
               inl (Exception "ValueError" "nothing to draw from");
               inr ([mkHh 0 ∅; mkHh 1 ∅], [mkPerson 1 ∅], 2%Q, 1%Q)] []
              hh pe fq log' (le_n 3) E) as (Hh & _ & _ & Hp).
  split; [|exact Hp].
  rewrite Hh. cbn. repeat f_equal; apply map_eq; intros k;
    rewrite ?(right_id_L ∅ (∪)); done.
Defined.

(** ** Geography columns *)

Lemma submitted_capped (num_geogs : option Z) (idx : list geog_id) :
  submitted num_geogs idx 0 = capped num_geogs idx.
Proof.
  rewrite submitted_take. unfold capped. destruct num_geogs as [n|]; [|done].
  by rewrite Z.sub_0_r.
Qed.

Lemma located_tables_located (idx gs : list geog_id)
    (rs : list (households * people * Q * Q)) :
  gs ⊆ idx → Forall (located idx) (concat (located_tables gs rs)).
Proof.
  revert rs. induction gs as [|g gs IH]; intros [|r rs] Hsub; cbn;
    try by constructor.
  apply Forall_app. split.
  - apply located_append, Hsub. left.
  - apply IH. intros x Hx. apply Hsub. by right.
Qed.

Lemma reassembled_located (idx : list geog_id) (start : Z)
    (kept : list (geog_id * (households * people * Q * Q))) :
  Forall (λ s, s.1 ∈ idx) kept → Forall (located idx) (reassembled start kept).1.
Proof.
  revert start. induction kept as [|[g r] kept IH]; intros start Hall;
    [by constructor|].
  apply Forall_cons_1 in Hall as [Hg Hall]. cbn in Hg.
  cbn [reassembled fst]. apply Forall_app. split; [|by apply IH].
  by apply located_shift, located_append.
Qed.

Lemma reassembled_person_cells (start : Z)
    (kept : list (geog_id * (households * people * Q * Q))) :
  p_cols <$> (reassembled start kept).2 = concat (person_cells <$> kept).
Proof.
  revert start. induction kept as [|[g r] kept IH]; intros start; [done|].
  cbn [reassembled snd]. rewrite fmap_app, IH, fmap_cons. cbn [concat].
  f_equal. unfold shift_hh_id, person_cells, people_of.
  by rewrite <- list_fmap_compose.
Qed.

Lemma results_of_zip_fst (geog_ids : list geog_id)
    (futures : list (exn + (households * people * Q * Q))) :
  Forall (λ s, s.1 ∈ geog_ids) (results_of (zip geog_ids futures)).
Proof.
  apply Forall_forall. intros [g r] Hin. unfold results_of in Hin.
  apply list_elem_of_omap in Hin as ([g' f] & Hz & Hs). cbn in Hs.
  destruct f as [e|r']; [done|]. injection Hs as -> ->.
  by apply elem_of_zip_l in Hz.
Qed.

Section GeographyColumns.
Context `{Collaborators}.
Variable recipe : Recipe.
Variable num_geogs : option Z.
Variables mzs jzs : Q.

(** The reassembly loop, as the tables it makes of the results it
    keeps. *)
Lemma reassemble_slots_tables slots a log a' log' :
  reassemble_slots slots a log = (inr a', log') →
  concat (hh_list a')
  = concat (hh_list a)
    ++ (reassembled (hh_index_start a) (results_of slots)).1 ∧
  concat (people_list a')
  = concat (people_list a)
    ++ (reassembled (hh_index_start a) (results_of slots)).2.
Proof.
  revert a log. induction slots as [|[g f] slots IH]; intros a log E.
  { injection E as <- _. cbn. by rewrite !app_nil_r. }
  cbn [reassemble_slots] in E. apply bind_inv in E as (a1 & l1 & E1 & E).
  apply IH in E as [-> ->]. destruct f as [e|[[[hh pe] c] p]].
  - cbn in E1. rewrite bind_run in E1. cbn in E1. by injection E1 as <- _.
  - rewrite reassemble_one_result in E1.
    destruct (block_group_key g log) as [[e|key] l0]; [done|].
    cbn in E1. injection E1 as <- _.
    rewrite results_of_cons_inr.
    cbn [hh_list people_list hh_index_start reassembled fst snd
         households_of people_of].
    rewrite !concat_app. cbn [concat]. by rewrite !app_nil_r, <- !app_assoc.
Qed.

(** C4, as the code has it.  The drivers write the fields of the
    geography id onto household rows only.  The tables the sequential
    driver returns are what [synthesize] returned for the geographies of
    the run, put end to end, the household tables with the fields of
    their geography written on them and the person tables as they came.
    The tables the parallel driver returns are made of the results of the
    synthesis tasks that succeeded: the household rows with the fields
    of the geography id of their slot written on them and their index
    moved by the running offset, the person rows with their [hh_id] moved
    by the same offset and their other cells as they came.  Every
    household row carries the fields of a geography of the run. *)
Theorem geography_columns_on_households_only :
  (∀ indexes log hh pe fq log',
     synthesize_all recipe num_geogs mzs jzs indexes log
       = (inr (hh, pe, fq), log') →
     let gs := capped num_geogs (resolved recipe indexes) in
     ∃ rs,
       sequential_trace recipe mzs jzs gs 0 rs ∧
       hh = concat (located_tables gs rs) ∧
       pe = concat (people_of <$> rs) ∧
       Forall (located gs) hh) ∧
  (∀ indexes sched1 sched2 log hh pe fq log',
     synthesize_all_in_parallel recipe num_geogs mzs jzs indexes
       sched1 sched2 log = (inr (hh, pe, fq), log') →
     let geog_ids := capped num_geogs (resolved recipe indexes) in
     ∃ finished,
       inr <$> finished
       = as_completed sched1
           ((λ g, pooled (geog_preprocessing recipe mzs jzs g))
              <$> geog_ids) ∧
       let kept :=
         results_of (zip geog_ids (synthesize_task <$> finished)) in
       hh = (reassembled 0 kept).1 ∧
       pe = (reassembled 0 kept).2 ∧
       p_cols <$> pe = concat (person_cells <$> kept) ∧
       Forall (located geog_ids) hh).
Proof.
  split.
  - intros indexes log hh pe fq log' E gs.
    destruct (synthesize_all_trace _ _ _ _ _ _ _ _ _ _ E)
      as (_ & _ & rs & Htr & Hh & Hp).
    exists rs. split; [done|]. split; [done|]. split; [done|].
    rewrite Hh. by apply located_tables_located.
  - intros indexes sched1 sched2 log hh pe fq log' E geog_ids.
    apply synthesize_all_in_parallel_inv in E
      as (finished & a & log1 & log2 & Es & Er & -> & -> & _).
    pose proof (submit_and_collect_length _ _ _ _ _ _ _ _ _ _ Es) as Hlen.
    destruct (finished_args_in_completion_order _ _ _ _ _ _ _ _ _ _ Es)
      as [_ Hfin].
    rewrite submitted_capped in Er, Hfin, Hlen. fold geog_ids in Er, Hfin, Hlen.
    exists finished. split; [exact Hfin|].
    rewrite reassemble_zip in Er by (rewrite length_fmap; lia).
    rewrite drop_0 in Er.
    apply reassemble_slots_tables in Er as [Hh Hp]. cbn in Hh, Hp.
    rewrite Hh, Hp. split; [done|]. split; [done|].
    split; [apply reassembled_person_cells|].
    apply reassembled_located, results_of_zip_fst.
Qed.

End GeographyColumns.

Lemma geography_columns_on_recipe :
  (∃ hh pe fq log' rs,
     Demo.sequential_run None = (inr (hh, pe, fq), log') ∧
     sequential_trace (H := Demo.collaborators) Demo.recipe 0.01 0.001
       (Demo.geog <$> [1; 2; 3]%Z) 0 rs ∧
     hh = concat (located_tables (Demo.geog <$> [1; 2; 3]%Z) rs) ∧
     pe = concat (people_of <$> rs) ∧
     Forall (located (Demo.geog <$> [1; 2; 3]%Z)) hh) ∧
  (∃ hh pe fq log' finished,
     Demo.parallel_run (Some (Demo.geog <$> [1; 0; 2]%Z)) [1]
       = (inr (hh, pe, fq), log') ∧
     pe = (reassembled 0
             (results_of
                (zip (Demo.geog <$> [1; 0; 2]%Z)
                   (synthesize_task (H := Demo.collaborators)
                      <$> finished)))).2 ∧
     Forall (located (Demo.geog <$> [1; 0; 2]%Z)) hh).
Proof.
  destruct (geography_columns_on_households_only (H := Demo.collaborators)
              Demo.recipe None 0.01 0.001) as [Hseq Hpar].
  split.
  - destruct (run_succeeded (Demo.sequential_run None))
      as ([[hh pe] fq] & log' & E); [vm_compute; reflexivity|].
    destruct (Hseq None [] hh pe fq log' E) as (rs & Htr & Hh & Hp & Hl).
    exists hh, pe, fq, log', rs. split; [exact E|]. split; [exact Htr|].
    split; [exact Hh|]. split; [exact Hp|exact Hl].
  - destruct (run_succeeded
                (Demo.parallel_run (Some (Demo.geog <$> [1; 0; 2]%Z)) [1]))
      as ([[hh pe] fq] & log' & E); [vm_compute; reflexivity|].
    destruct (Hpar _ [1] [] [] hh pe fq log' E)
      as (finished & _ & _ & Hp & _ & Hl).
    exists hh, pe, fq, log', finished. split; [exact E|].
    split; [exact Hp|exact Hl].
Defined.

(** C4, as stated, fails: the person rows both drivers return for
    geography 1 hold the cell the drawer gave them and no key column of
    the geography, while the household rows hold all four. *)
Lemma person_rows_lack_geography_columns :
  Demo.view (Demo.sequential_run (Some [Demo.geog 1]))
  = inr ([(0%Z, [("state", CStr "06"); ("county", CStr "075");
                 ("block group", CInt 1); ("tract", CStr "000100");
                 ("household of", CInt 1)])],
         [(0%Z, [("person of", CInt 1)])],
         [(Demo.key 1, mkFitQuality 1 1)]) ∧
  Demo.view (Demo.parallel_run (Some [Demo.geog 1]) [])
  = inr ([(0%Z, [("state", CStr "06"); ("county", CStr "075");
                 ("block group", CInt 1); ("tract", CStr "000100");
                 ("household of", CInt 1)])],
         [(0%Z, [("person of", CInt 1)])],
         [(Demo.key 1, mkFitQuality 1 1)]).
Proof. split; vm_compute; reflexivity. Qed.

(** ** The two drivers compared *)

Section Compared.
Context `{Collaborators}.
Variable recipe : Recipe.
Variable num_geogs : option Z.
Variables mzs jzs : Q.





End Compared.



(** ** A household marginal without cells *)

Lemma num_households_of_empty `{Collaborators} (sub : Q) :
  num_households_of (marginal_replace0 sub [])
  = inl (Exception "ValueError" "cannot convert float NaN to integer").
Proof. reflexivity. Qed.

(** X11.  With an empty household marginal [synthesize] never gets as far
    as the drawer: the mean of line 85 is NaN, and when the steps before
    it succeed, [int()] raises ValueError. *)
Theorem empty_household_marginal_raises `{Collaborators}
    (mzs jzs : Q) (start : Z) (s : synth_state) :
  o_h_marg s = [] →
  (∀ r, (synthesize mzs jzs start s).1 ≠ inr r) ∧
  (∀ pre s1 w f it,
     synthesize_prepare mzs jzs s = (inr pre, s1) →
     household_weights (ia_household_freq pre) (ia_person_freq pre)
       (ia_h_constraint pre) (ia_p_constraint pre) 20000 = inr (w, f, it) →
     (synthesize mzs jzs start s).1
     = inl (Exception "ValueError" "cannot convert float NaN to integer")).
Proof.
  intros Hm. split.
  - intros r Hr. destruct (synthesize mzs jzs start s) as [res s2] eqn:E.
    cbn in Hr. subst res. unfold synthesize in E.
    apply bind_inv in E as (a & s1 & E & _).
    apply synthesize_fit_count in E.
    by rewrite Hm, num_households_of_empty in E.
  - intros pre s1 w f it E Hw.
    pose proof (synthesize_prepare_inv _ _ _ _ _ E) as (Hmarg & _).
    rewrite Hm in Hmarg.
    unfold synthesize, synthesize_fit. rewrite !bind_run, E.
    cbv [synthesize_weights mbind M_bind mret M_ret gets call modify logger
         emit max_iterations].
    rewrite Hw, Hmarg, num_households_of_empty.
    by destruct (decide (it = 20000%Z)).
Qed.

Lemma empty_household_marginal_on_recipe :
  o_h_marg Inputs.no_household_marginal = [] ∧
  succeeded
    (synthesize_prepare (H := Demo.collaborators) 0.01 0.001
       Inputs.no_household_marginal).1 = true ∧
  (synthesize (H := Demo.collaborators) 0.01 0.001 0
     Inputs.no_household_marginal).1
  = inl (Exception "ValueError" "cannot convert float NaN to integer").
Proof.
  split; [reflexivity|].
  assert (succeeded
            (synthesize_prepare (H := Demo.collaborators) 0.01 0.001
               Inputs.no_household_marginal).1 = true) as Hs
    by (vm_compute; reflexivity).
  split; [exact Hs|].
  destruct (run_succeeded _ Hs) as (pre & s1 & E).
  destruct (empty_household_marginal_raises (H := Demo.collaborators)
              0.01 0.001 0 Inputs.no_household_marginal eq_refl)
    as [_ Hraise].
  exact (Hraise pre s1 () () 20000%Z E eq_refl).
Defined.

(** ** What the collaborators are handed *)

(** X12.  What lines 33-66 hand on.  Both constraint fits run on the
    zero-substituted tables; the household constraint is indexed by the
    household cat_ids and the person constraint by the person cat_ids with
    [h_jd['cat_id'].max() + 1] added, each fit having returned one value
    per row of its joint distribution; and the frequency tables are built
    from the person sample and the person cat_ids after the addition. *)
Theorem synthesize_prepare_hands_on `{Collaborators}
    (mzs jzs : Q) (s s' : synth_state) (a : ipu_args) :
  synthesize_prepare mzs jzs s = (inr a, s') →
  let k := p_starting_cat_id_of (o_h_jd s) in
  ∃ h_vals h_aux p_vals p_aux,
    calculate_constraints (marginal_replace0 mzs (o_h_marg s))
      (replace0 jzs <$> jd_frequency (o_h_jd s)) = inr (h_vals, h_aux) ∧
    calculate_constraints (marginal_replace0 mzs (o_p_marg s))
      (replace0 jzs <$> jd_frequency (o_p_jd s)) = inr (p_vals, p_aux) ∧
    length h_vals = length (jd_cat_id (o_h_jd s)) ∧
    length p_vals = length (jd_cat_id (o_p_jd s)) ∧
    ia_h_constraint a = zip (jd_cat_id (o_h_jd s)) h_vals ∧
    ia_p_constraint a
      = zip ((λ c, cat_add c k) <$> jd_cat_id (o_p_jd s)) p_vals ∧
    frequency_tables (pums_shift_cat_id k (o_p_pums s)) (o_h_pums s)
      ((λ c, cat_add c k) <$> jd_cat_id (o_p_jd s))
      (jd_cat_id (o_h_jd s))
    = inr (ia_household_freq a, ia_person_freq a).
Proof.
  intros E. run_monad_in E. cbn in E. unfold set_index in E.
  repeat case_match; simplify_eq. cbn in *.
  match goal with
  | Hh : calculate_constraints (marginal_replace0 _ (o_h_marg _)) _
         = inr (?hv, ?ha),
    Hp : calculate_constraints (marginal_replace0 _ (o_p_marg _)) _
         = inr (?pv, ?pa) |- _ => exists hv, ha, pv, pa
  end.
  repeat split; try done.
  etransitivity; [eassumption|apply length_fmap].
Qed.

Lemma synthesize_prepare_hands_on_counts :
  ∃ a s',
    synthesize_prepare (H := Demo.collaborators) 0.01 0.001 Inputs.counts
      = (inr a, s') ∧
    (ia_h_constraint a).*1 = [CatId 0; CatId 1] ∧
    (ia_p_constraint a).*1 = [CatId 2; CatId 3].
Proof.
  destruct (run_succeeded
              (synthesize_prepare (H := Demo.collaborators) 0.01 0.001
                 Inputs.counts)) as (a & s' & E); [vm_compute; reflexivity|].
  exists a, s'. split; [exact E|].
  destruct (synthesize_prepare_hands_on 0.01 0.001 _ _ _ E)
    as (hv & ha & pv & pa & _ & _ & Lh & Lp & -> & -> & _).
  rewrite !fst_zip by (rewrite ?length_fmap; lia). done.
Defined.

(** ** What [synthesize] logs *)

#[global] Instance log_grows_quietly_preorder : PreOrder log_grows_quietly.
Proof.
  split.
  - intros s. exists []. split; [by rewrite app_nil_r|].
    intros m Hm. by apply elem_of_nil in Hm.
  - intros s1 s2 s3 (n1 & E1 & H1) (n2 & E2 & H2). exists (n1 ++ n2).
    split; [by rewrite E2, E1, app_assoc|].
    intros m [Hm|Hm]%elem_of_app; auto.
Qed.

Lemma keeps_logger (lv : level) (m : message) :
  (lv = WARN → m = Iterations 20000) →
  keeps log_grows_quietly (logger lv m).
Proof.
  intros Hlv s. exists [Log lv m]. split; [done|].
  intros m' Hm%list_elem_of_singleton. simplify_eq. by apply Hlv.
Qed.

Lemma keeps_log_untouched (f : synth_state → synth_state) :
  (∀ s, o_log (f s) = o_log s) → keeps log_grows_quietly (modify f).
Proof.
  intros Hf s. exists []. cbn. split; [by rewrite Hf, app_nil_r|].
  intros m Hm. by apply elem_of_nil in Hm.
Qed.

Ltac quiet_steps :=
  repeat first
    [ apply keeps_ret; apply _
    | apply keeps_call; apply _
    | apply keeps_gets; apply _
    | apply keeps_logger; intros ?; first [discriminate|congruence]
    | apply keeps_log_untouched; intros ?; reflexivity
    | apply keeps_bind; [apply _| |intros ?]
    | match goal with |- keeps _ (match ?x with _ => _ end) => destruct x end ].

(** X13.  Whatever its outcome, [synthesize] only adds records to the log,
    and the only warning it ever logs is the one that reports an iteration
    count of 20000. *)
Theorem synthesize_warns_only_at_the_cap `{Collaborators}
    (mzs jzs : Q) (start : Z) (s : synth_state) :
  ∃ new,
    o_log (synthesize mzs jzs start s).2 = o_log s ++ new ∧
    ∀ m, Log WARN m ∈ new → m = Iterations 20000.
Proof.
  assert (keeps log_grows_quietly (synthesize mzs jzs start)) as Hk;
    [|exact (Hk s)].
  unfold synthesize, synthesize_fit, synthesize_prepare, synthesize_weights,
    zero_guard, namespace_person_cat_ids, draw.
  quiet_steps.
Qed.


(** ** [synthesize] called again on the same tables *)

Lemma replace0_fixed (sub sub' v : Q) :
  Qeq_bool sub 0 = false →
  replace0 sub' (replace0 sub v) = replace0 sub v.
Proof.
  intros Hs. unfold replace0.
  destruct (Qeq_bool v 0) eqn:Ev; [by rewrite Hs|by rewrite Ev].
Qed.

Lemma wrap64_add_l (a b : Z) : wrap64 (wrap64 a + b) = wrap64 (a + b).
Proof.
  unfold wrap64. f_equal.
  replace ((a + 2 ^ 63) mod 2 ^ 64 - 2 ^ 63 + b + 2 ^ 63)%Z
    with ((a + 2 ^ 63) mod 2 ^ 64 + b)%Z by lia.
  rewrite Zplus_mod_idemp_l. f_equal. lia.
Qed.

Lemma wrap64_add_r (a b : Z) : wrap64 (a + wrap64 b) = wrap64 (a + b).
Proof. by rewrite Z.add_comm, wrap64_add_l, Z.add_comm. Qed.

Lemma synthesize_inv `{Collaborators} mzs jzs start s r s' :
  synthesize mzs jzs start s = (inr r, s') →
  let k := p_starting_cat_id_of (o_h_jd s) in
  o_h_jd s' = jd_replace0_frequency jzs (o_h_jd s) ∧
  o_p_jd s' = jd_shift_cat_id k (jd_replace0_frequency jzs (o_p_jd s)) ∧
  o_p_pums s' = pums_shift_cat_id k (o_p_pums s).
Proof.
  intros E. unfold synthesize in E. apply bind_inv in E as (a & s1 & E1 & E3).
  unfold synthesize_fit in E1. apply bind_inv in E1 as (pre & s0 & E1 & E2).
  apply synthesize_prepare_inv in E1
    as (_ & _ & _ & _ & _ & _ & Hhjd & Hpjd & Hpp).
  apply synthesize_weights_inv in E2 as (w & f & it & _ & _ & _ & Hsame).
  unfold draw, call in E3. injection E3 as _ <-.
  by injection Hsame as _ _ -> -> _ ->.
Qed.

(** X14.  [synthesize] is not idempotent on the tables it is passed.  A
    second call that returns on the same table objects, whatever its
    substitutes and offset, adds [h_jd['cat_id'].max() + 1] to the person
    cat_ids of the joint distribution and of the sample once more; it
    leaves the [frequency] columns as the first call left them when the
    first call substituted a value other than zero.  On an int64 household
    column that has a row, the person ids have moved by
    2 * (max household cat_id + 1) in all, in int64 arithmetic. *)
Theorem synthesize_again_moves_person_cat_ids `{Collaborators}
    (mzs mzs' jzs jzs' : Q) (start start' : Z) (s s1 s2 : synth_state)
    r r' :
  synthesize mzs jzs start s = (inr r, s1) →
  synthesize mzs' jzs' start' s1 = (inr r', s2) →
  let k := p_starting_cat_id_of (o_h_jd s) in
  jd_cat_id (o_h_jd s2) = jd_cat_id (o_h_jd s) ∧
  jd_cat_id (o_p_jd s2)
    = (λ c, cat_add (cat_add c k) k) <$> jd_cat_id (o_p_jd s) ∧
  pums_cat_id <$> o_p_pums s2
    = (λ c, cat_add (cat_add c k) k) <$> (pums_cat_id <$> o_p_pums s) ∧
  jd_frequency (o_h_jd s2)
    = replace0 jzs' <$> (replace0 jzs <$> jd_frequency (o_h_jd s)) ∧
  jd_frequency (o_p_jd s2)
    = replace0 jzs' <$> (replace0 jzs <$> jd_frequency (o_p_jd s)) ∧
  (Qeq_bool jzs 0 = false →
   jd_frequency (o_h_jd s2) = jd_frequency (o_h_jd s1) ∧
   jd_frequency (o_p_jd s2) = jd_frequency (o_p_jd s1)) ∧
  (∀ hs m,
     jd_cat_id (o_h_jd s) = CatId <$> hs →
     m ∈ hs → Forall (λ c, (c ≤ m)%Z) hs →
     ∀ c, cat_add (cat_add (CatId c) k) k
          = CatId (wrap64 (c + 2 * (m + 1)))).
Proof.
  intros E1 E2 k.
  apply synthesize_inv in E1 as (Hh1 & Hp1 & Hpp1).
  apply synthesize_inv in E2 as (Hh2 & Hp2 & Hpp2).
  assert (p_starting_cat_id_of (o_h_jd s1) = k) as Hk by (by rewrite Hh1).
  rewrite Hk in Hp2, Hpp2.
  rewrite Hh2, Hp2, Hpp2, Hh1, Hp1, Hpp1.
  unfold jd_replace0_frequency, jd_shift_cat_id, pums_shift_cat_id. cbn.
  split; [done|]. split; [by rewrite <- list_fmap_compose|].
  split; [by rewrite <- !list_fmap_compose|].
  split; [done|]. split; [done|]. split.
  - intros Hz. split; rewrite <- list_fmap_compose; apply list_fmap_ext;
      intros _ v _; by apply replace0_fixed.
  - intros hs m Hh Hm Hle c. subst k. unfold p_starting_cat_id_of.
    rewrite Hh, (max_cat_id_ids _ _ Hm Hle). cbn. f_equal.
    rewrite wrap64_add_l, wrap64_add_r.
    replace (c + wrap64 (m + 1) + (m + 1))%Z
      with (c + (m + 1) + wrap64 (m + 1))%Z by lia.
    rewrite wrap64_add_r. f_equal. lia.
Qed.

Lemma synthesize_again_on_counts :
  ∃ r s1 r' s2,
    synthesize (H := Demo.collaborators) 0.01 0.001 0 Inputs.counts
      = (inr r, s1) ∧
    synthesize (H := Demo.collaborators) 0.5 0.25 7 s1 = (inr r', s2) ∧
    jd_cat_id (o_p_jd s2) = [CatId 4; CatId 5] ∧
    jd_frequency (o_p_jd s2) = jd_frequency (o_p_jd s1).
Proof.
  destruct (run_succeeded
              (synthesize (H := Demo.collaborators) 0.01 0.001 0
                 Inputs.counts)) as (r & s1 & E1); [vm_compute; reflexivity|].
  destruct (run_succeeded
              (synthesize (H := Demo.collaborators) 0.5 0.25 7 s1))
    as (r' & s2 & E2).
  { replace s1
      with (synthesize (H := Demo.collaborators) 0.01 0.001 0
              Inputs.counts).2 by (by rewrite E1).
    vm_compute. reflexivity. }
  exists r, s1, r', s2. split; [exact E1|]. split; [exact E2|].
  destruct (synthesize_again_moves_person_cat_ids _ _ _ _ _ _ _ _ _ _ _ E1 E2)
    as (_ & Hc & _ & _ & _ & Hf & _).
  split; [exact Hc|]. exact (proj2 (Hf eq_refl)).
Defined.

(** ** What [synthesize] has done to the tables when it raises *)

Lemma keeps_then {S A B} (Ra Rb Rc : relation S)
    (m : M S A) (f : A → M S B) :
  (∀ s1 s2, Ra s1 s2 → Rc s1 s2) →
  (∀ s1 s2 s3, Ra s1 s2 → Rb s2 s3 → Rc s1 s3) →
  keeps Ra m → (∀ x, keeps Rb (f x)) → keeps Rc (m ≫= f).
Proof.
  intros Hac Habc Hm Hf s. rewrite bind_run. specialize (Hm s).
  destruct (m s) as [[e|x] s1]; [by apply Hac|].
  eapply Habc; [exact Hm|apply Hf].
Qed.

#[global] Instance tables_kept_preorder : PreOrder tables_kept.
Proof.
  split; [by intros s|].
  intros s1 s2 s3 E1 E2. unfold tables_kept in *. congruence.
Qed.

Lemma tables_kept_moved s1 s2 :
  tables_kept s1 s2 → person_ids_kept_or_moved s1 s2.
Proof. intros [= ? ? ? ? ? ?]. repeat split; try done. by left. Qed.

Lemma tables_kept_then_moved s1 s2 s3 :
  tables_kept s1 s2 → person_ids_kept_or_moved s2 s3 →
  person_ids_kept_or_moved s1 s3.
Proof.
  intros [= E1 E2 E3 E4 E5 E6] (?&?&?&?&Hp).
  unfold person_ids_kept_or_moved.
  rewrite E1, E2, E3, E4, E5, E6 in *. by repeat split.
Qed.

Lemma moved_then_tables_kept s1 s2 s3 :
  person_ids_kept_or_moved s1 s2 → tables_kept s2 s3 →
  person_ids_kept_or_moved s1 s3.
Proof.
  intros (?&?&?&?&Hp) [= E1 E2 E3 E4 E5 E6].
  unfold person_ids_kept_or_moved.
  rewrite E1, E2, E3, E4, E5, E6. by repeat split.
Qed.

Lemma namespacer_moves_or_keeps (p_vals : list Q) :
  keeps person_ids_kept_or_moved (namespace_person_cat_ids p_vals).
Proof.
  intros s.
  cbv [namespace_person_cat_ids mbind M_bind gets call modify]. cbn.
  split; [done|]. split; [done|]. split; [done|]. split; [done|].
  by right.
Qed.

Ltac kept_steps :=
  unfold logger;
  repeat first
    [ apply keeps_ret; apply _
    | apply keeps_call; apply _
    | apply keeps_gets; apply _
    | apply keeps_modify; intros ?; reflexivity
    | apply keeps_bind; [apply _| |intros ?]
    | match goal with |- keeps _ (match ?x with _ => _ end) => destruct x end ].

Ltac moved_steps :=
  repeat first
    [ match goal with
      | |- keeps _ (namespace_person_cat_ids _ ≫= _) =>
          apply (keeps_then person_ids_kept_or_moved tables_kept
                   person_ids_kept_or_moved);
          [done|apply moved_then_tables_kept|apply namespacer_moves_or_keeps
          |intros ?; kept_steps]
      | |- keeps _ (match ?x with _ => _ end) => destruct x
      | |- keeps _ (_ ≫= _) =>
          apply (keeps_then tables_kept person_ids_kept_or_moved
                   person_ids_kept_or_moved);
          [apply tables_kept_moved|apply tables_kept_then_moved
          |kept_steps|intros ?]
      end ].

(** X15.  Whatever its outcome, also when it raises, [synthesize] leaves the
    [frequency] columns of both joint distributions zero-substituted, and
    the person cat_ids either as they were or with
    [h_jd['cat_id'].max() + 1] added (NaN when the household joint
    distribution has no row), in the joint distribution and in the sample
    alike: an exception raised after line 60 leaves the caller with
    changed ids. *)
Theorem synthesize_effects_whatever_the_outcome `{Collaborators}
    (mzs jzs : Q) (start : Z) (s : synth_state) :
  let s' := (synthesize mzs jzs start s).2 in
  let k := p_starting_cat_id_of (o_h_jd s) in
  jd_frequency (o_h_jd s') = replace0 jzs <$> jd_frequency (o_h_jd s) ∧
  jd_frequency (o_p_jd s') = replace0 jzs <$> jd_frequency (o_p_jd s) ∧
  ((jd_cat_id (o_p_jd s') = jd_cat_id (o_p_jd s) ∧
    o_p_pums s' = o_p_pums s) ∨
   (jd_cat_id (o_p_jd s') = (λ c, cat_add c k) <$> jd_cat_id (o_p_jd s) ∧
    o_p_pums s' = pums_shift_cat_id k (o_p_pums s))).
Proof.
  cbv zeta.
  assert (person_ids_kept_or_moved (zero_guard mzs jzs s).2
            (synthesize mzs jzs start s).2) as (_ & _ & Hh & _ & Hp).
  { unfold synthesize, synthesize_fit, synthesize_prepare.
    rewrite zero_guard_run. cbn [snd].
    match goal with
    | |- person_ids_kept_or_moved ?s0
           ((((zero_guard _ _ ≫= ?f) ≫= ?w) ≫= ?d) s).2 =>
        change ((((zero_guard mzs jzs ≫= f) ≫= w) ≫= d) s)
          with (((f (marginal_replace0 mzs (o_h_marg s),
                     marginal_replace0 mzs (o_p_marg s)) ≫= w) ≫= d) s0);
        assert (keeps person_ids_kept_or_moved
                  ((f (marginal_replace0 mzs (o_h_marg s),
                       marginal_replace0 mzs (o_p_marg s)) ≫= w) ≫= d))
          as Hk; [|exact (Hk s0)]
    end.
    cbv beta iota.
    apply (keeps_then person_ids_kept_or_moved tables_kept
             person_ids_kept_or_moved);
      [done|apply moved_then_tables_kept| |intros ?; unfold draw; kept_steps].
    apply (keeps_then person_ids_kept_or_moved tables_kept
             person_ids_kept_or_moved);
      [done|apply moved_then_tables_kept|
      |intros ?; unfold synthesize_weights; kept_steps].
    moved_steps. }
  rewrite zero_guard_run in Hh, Hp. cbn in Hh, Hp.
  rewrite Hh. split; [done|].
  destruct Hp as [[Hj Hpp]|[Hj Hpp]]; rewrite Hj.
  - split; [done|]. by left.
  - split; [done|]. by right.
Qed.
